(** * awebox.ocp.operation: operation-mode specific constraints

    A shallow embedding of [awebox/ocp/operation.py]: the mode classifier
    ([get_operation_conditions]), the constraint-family builders and the
    entry aggregation ([clear_empty_keys], [make_entry_list]).

    Conventions.
    - A Python exception is a value of [exn]; a function that may raise
      returns a [result].
    - Entries of casadi expressions live in an arbitrary carrier [R] with the
      operations the builders use; nothing is assumed about them, so every
      statement holds for symbolic expressions and for numbers alike.
    - A casadi struct branch (a state vector) is an ordered association list
      from key to block, a block being the column of its entries.
    - A Python dict is an insertion-ordered association list stored in a heap
      of objects, so that in-place mutation and aliasing are visible. *)

From Stdlib Require Import Ascii DecimalString.
From stdpp Require Import gmap strings list.

Open Scope string_scope.
Open Scope list_scope.
Open Scope nat_scope.

(** ** Python values shared by all parts *)

Inductive exn :=
  | KeyError (key : string)
  | IndexError
  | AttributeError
  | DimensionError.

Inductive result (A : Type) :=
  | Ok (a : A)
  | Raise (e : exn).
Arguments Ok {A} a.
Arguments Raise {A} e.

#[global] Instance result_ret : MRet result := fun A a => Ok a.
#[global] Instance result_bind : MBind result := fun A B f m =>
  match m with
  | Ok a => f a
  | Raise e => Raise e
  end.
#[global] Instance result_fmap : FMap result := fun A B f m =>
  match m with
  | Ok a => Ok (f a)
  | Raise e => Raise e
  end.

(** [str(n)] for a non-negative Python int. *)
Definition str (n : nat) : string := NilZero.string_of_uint (Nat.to_uint n).

(** [x in [a, b, ...]] for strings. *)
Definition py_in (x : string) (l : list string) : bool :=
  existsb (String.eqb x) l.

(** [d[key]] on an ordered mapping. *)
Fixpoint getitem {V : Type} (d : list (string * V)) (key : string) : result V :=
  match d with
  | [] => Raise (KeyError key)
  | (k, v) :: d' => if String.eqb k key then Ok v else getitem d' key
  end.

(** [list(d.keys())] *)
Definition keys {V : Type} (d : list (string * V)) : list string := d.*1.

(** ** Options *)

(** The entries of the nested option dictionary that this file reads.
    [emergency_scenario] is the pair (scenario name, broken kite). *)
Record options (R : Type) := {
  trajectory_type : string;
  mpc_terminal_point_constr : bool;
  compromised_landing_emergency_scenario : string * nat;
  nominal_landing_main_node_radius : R;
  nominal_landing_kite_node_radius : R
}.
Arguments trajectory_type {R} _.
Arguments mpc_terminal_point_constr {R} _.
Arguments compromised_landing_emergency_scenario {R} _.
Arguments nominal_landing_main_node_radius {R} _.
Arguments nominal_landing_kite_node_radius {R} _.

(** ** Mode classifier *)

Module Classifier.
Section Classifier.
Context {R : Type}.
Implicit Type o : options R.

(** Modelled from the spec: [perf_op.determine_if_periodic] lives in
    [awebox/tools/performance_operations.py], which is not part of the
    sources at hand. The mode table gives "periodic: true when
    trajectory.type == power_cycle". *)
Definition determine_if_periodic o : bool :=
  String.eqb (trajectory_type o) "power_cycle".

Definition determine_if_terminal_conditions o : bool :=
  let mpc := String.eqb (trajectory_type o) "mpc" in
  let terminal_point := mpc_terminal_point_constr o in
  mpc && terminal_point.

Definition determine_if_integral_constraints o : bool :=
  let compromised_landing := String.eqb (trajectory_type o) "compromised_landing" in
  let broken_battery :=
    compromised_landing &&
    String.eqb (compromised_landing_emergency_scenario o).1 "broken_battery" in
  broken_battery.

Definition determine_if_terminal_inequalities o : bool :=
  py_in (trajectory_type o) ["nominal_landing"; "compromised_landing"].

Definition determine_if_param_initial_conditions o : bool :=
  py_in (trajectory_type o) ["transition"; "nominal_landing"; "compromised_landing"].

Definition determine_if_initial_conditions o : bool :=
  py_in (trajectory_type o) ["launch"; "mpc"].

Definition determine_if_param_terminal_conditions o : bool :=
  py_in (trajectory_type o) ["transition"; "launch"].

(** The seven flags, in the order of the returned list. *)
Record conditions := {
  periodic : bool;
  initial_conditions : bool;
  param_initial_conditions : bool;
  param_terminal_conditions : bool;
  terminal_inequalities : bool;
  integral_constraints : bool;
  terminal_conditions : bool
}.

Definition get_operation_conditions o : conditions :=
  {| periodic := determine_if_periodic o;
     initial_conditions := determine_if_initial_conditions o;
     param_initial_conditions := determine_if_param_initial_conditions o;
     param_terminal_conditions := determine_if_param_terminal_conditions o;
     terminal_inequalities := determine_if_terminal_inequalities o;
     integral_constraints := determine_if_integral_constraints o;
     terminal_conditions := determine_if_terminal_conditions o |}.

End Classifier.
End Classifier.

(** ** Entry aggregation *)

Module Aggregator.

(** What a dictionary of constraint entries may hold: a casadi matrix,
    which answers [size()] with its shape, or a plain Python object (a
    list such as the [[]] a builder returns when it appended nothing, or
    a number), which has no [size] method. *)
Inductive pyvalue :=
  | Casadi (rows cols : nat)
  | PyList (len : nat)
  | PyFloat.

(** [v.size()] *)
Definition size (v : pyvalue) : result (nat * nat) :=
  match v with
  | Casadi rows cols => Ok (rows, cols)
  | PyList _ | PyFloat => Raise AttributeError
  end.

Definition has_size (v : pyvalue) : bool :=
  match size v with Ok _ => true | Raise _ => false end.

Abbreviation pydict := (list (string * pyvalue)) (only parsing).

(** Dictionaries are objects: a variable holds a location of the heap.
    The second argument of [make_constraint_struct] is sometimes the
    literal [[]], hence [List]. *)
Abbreviation loc := nat (only parsing).

Inductive pyobj :=
  | Dict (l : loc)
  | List (len : nat).

Record state := {
  heap : gmap loc pydict;
  log : list string   (* warnings sent to awelogger, oldest first *)
}.

Definition heap_get (s : state) (l : loc) : result pydict :=
  match heap s !! l with
  | Some d => Ok d
  | None => Raise (KeyError "dangling reference")
  end.

Definition heap_set (l : loc) (d : pydict) (s : state) : state :=
  {| heap := <[l := d]> (heap s); log := log s |}.

Definition warn (msg : string) (s : state) : state :=
  {| heap := heap s; log := log s ++ [msg] |}.

Definition warning (name : string) : string :=
  "removing constraint entry (" +:+ name +:+
  ") from dictionary, because it appears to be empty".

(** [d.pop(name)]: the dictionary without [name]. *)
Definition pop (d : pydict) (name : string) : pydict :=
  filter (fun kv => kv.1 ≠ name) d.

(** [bool(obj)] *)
Definition truthy (obj : pyobj) (s : state) : result bool :=
  match obj with
  | Dict l => d ← heap_get s l; Ok (negb (bool_decide (d = [])))
  | List len => Ok (negb (Nat.eqb len 0))
  end.

(** The body of the loop of [clear_empty_keys], on the dictionary at [l]. *)
Definition clear_body (l : loc) (name : string) (s : state) : result state :=
  d ← heap_get s l;
  match getitem d name ≫= size with
  | Ok _ => Ok s
  | Raise _ =>
      let s := warn (warning name) s in
      _ ← getitem d name;
      Ok (heap_set l (pop d name) s)
  end.

Fixpoint for_each (body : string → state → result state)
    (names : list string) (s : state) : result state :=
  match names with
  | [] => Ok s
  | name :: names => s ← body name s; for_each body names s
  end.

Definition clear_empty_keys (dict : pyobj) (s : state) : result (pyobj * state) :=
  nonempty ← truthy dict s;
  if nonempty : bool then
    match dict with
    | Dict l =>
        d ← heap_get s l;
        s ← for_each (clear_body l) (keys d) s;
        Ok (dict, s)
    | List _ => Raise AttributeError   (* a list has no keys() *)
    end
  else Ok (dict, s).

(** [cas.entry(name, shape = ...)] inside a branch, and the entries of the
    top-level struct: [cas.entry(name, struct = ...)]. *)
Abbreviation leaf := (string * (nat * nat))%type (only parsing).

Inductive entry :=
  | entry_struct (name : string) (struct : list leaf).

(** [[cas.entry(name, shape = d[name].size()) for name in list(d.keys())]] *)
Definition shape_entries (d : pydict) : result (list leaf) :=
  mapM (fun name => v ← getitem d name; shape ← size v; Ok (name, shape))
       (keys d).

(** One [if bool(d):] block of [make_entry_list]. *)
Definition branch (name : string) (dict : pyobj) (s : state)
    (entry_list : list entry) : result (list entry) :=
  nonempty ← truthy dict s;
  if nonempty : bool then
    match dict with
    | Dict l =>
        d ← heap_get s l;
        struct ← shape_entries d;
        Ok (entry_list ++ [entry_struct name struct])
    | List _ => Raise AttributeError
    end
  else Ok entry_list.

Definition make_entry_list (eqs_dict ineqs_dict : pyobj) (s : state)
    : result (list entry * state) :=
  '(eqs_dict, s) ← clear_empty_keys eqs_dict s;
  '(ineqs_dict, s) ← clear_empty_keys ineqs_dict s;
  let entry_list := [] in
  entry_list ← branch "equality" eqs_dict s entry_list;
  entry_list ← branch "inequality" ineqs_dict s entry_list;
  Ok (entry_list, s).

(** [cas.struct_symSX(entry_list)] is determined by its entries. *)
Definition make_constraint_struct (eqs_dict ineqs_dict : pyobj) (s : state)
    : result (list entry * state) :=
  make_entry_list eqs_dict ineqs_dict s.

(** Introspection of a constraint struct. *)
Definition leaf_size (lf : leaf) : nat := lf.2.1 * lf.2.2.

Definition branch_of (name : string) (struct : list entry) : list leaf :=
  concat (omap (fun e => match e with
                         | entry_struct n lvs =>
                             if String.eqb n name then Some lvs else None
                         end) struct).

Definition leaves (struct : list entry) : list leaf :=
  concat (map (fun e => match e with entry_struct _ lvs => lvs end) struct).

(** Length of [struct.cat]. *)
Definition flat_length (struct : list entry) : nat :=
  sum_list_with leaf_size (leaves struct).

(** The entries of [d] that answer a size query, with their shapes. *)
Definition sized (d : pydict) : list leaf :=
  omap (fun kv => match size kv.2 with
                  | Ok shape => Some (kv.1, shape)
                  | Raise _ => None
                  end) d.

Definition survivors (d : pydict) : pydict :=
  filter (fun kv => has_size kv.2 = true) d.

End Aggregator.

(** ** Constraint-family builders *)

(** [sub in s] for strings. *)
Fixpoint contains (sub s : string) : bool :=
  String.prefix sub s ||
  match s with
  | EmptyString => false
  | String _ s' => contains sub s'
  end.

(** [name[0]] *)
Definition first_char (name : string) : result string :=
  match name with
  | EmptyString => Raise IndexError
  | String c _ => Ok (String c EmptyString)
  end.

(** [name[:2]] *)
Definition first_two (name : string) : string := String.substring 0 2 name.

(** A state vector: the ['x'] branch of a casadi struct, from key to the
    column of entries stored under that key. *)
Abbreviation struct R := (list (string * list R)) (only parsing).

(** [xi_dict['xi']] *)
Record xi_dict (R : Type) := {
  xi_0 : R;
  xi_f : R
}.
Arguments xi_0 {R} _.
Arguments xi_f {R} _.

(** What the builders read of the model: the symbolic struct
    [model.variables_dict['x']] (keys and sizes), [model.scaling['x']] and
    the architecture. *)
Record model (R : Type) := {
  variables_dict_x : list (string * nat);
  scaling_x : struct R;
  kite_nodes : list nat;
  parent_map : gmap nat nat
}.
Arguments variables_dict_x {R} _.
Arguments scaling_x {R} _.
Arguments kite_nodes {R} _.
Arguments parent_map {R} _.

Inductive cstr_type := eq_cstr | ineq_cstr.

(** [cstr_op.Constraint(expr=..., name=..., cstr_type=...)] *)
Record Constraint (R : Type) := {
  expr : list R;
  name : string;
  ctype : cstr_type
}.
Arguments expr {R} _.
Arguments name {R} _.
Arguments ctype {R} _.

(** Modelled from the spec: [struct_op.split_name_and_node_identifier] is in
    [awebox/tools/struct_operations.py], not part of the sources at hand. 
    "Each key decomposes into a semantic root (q, dq, r, e, w, dw, coeff) and
    an optional node-pair suffix, e.g. q10, coeff21": the suffix is the
    trailing run of digits. *)
Definition is_digit (c : ascii) : bool :=
  let n := nat_of_ascii c in (48 <=? n) && (n <=? 57).

Fixpoint split_trailing_digits (s : string) : string * string :=
  match s with
  | EmptyString => (EmptyString, EmptyString)
  | String c s' =>
      let '(root, node) := split_trailing_digits s' in
      match root with
      | EmptyString =>
          if is_digit c then (EmptyString, String c node)
          else (String c EmptyString, node)
      | _ => (String c root, node)
      end
  end.

Module Builders.
Section Builders.
Context {R : Type}.

(** Arithmetic of casadi entries: [0], [+], [-], [*], [/] and [** 2]. *)
Variable zero : R.
Variables add sub mul div : R → R → R.
Variable pow2 : R → R.

(** External collaborators. *)
(** [actuator_flow.get_label(options)] *)
Variable get_label : options R → string.
(** [struct_op.split_name_and_node_identifier(state)] *)
Variable split_name_and_node_identifier : string → string * string.
(** [parameterization.get_splines(variables, xi_dict, phase)[key]] *)
Variable get_splines : struct R → xi_dict R → string → string → R → R.
(** The order in which Python enumerates a set with the given elements. *)
Variable iteration_order : list string → list string.

(** An elementwise casadi operation: equal shapes, or one scalar operand. *)
Definition elementwise (f : R → R → R) (a b : list R) : result (list R) :=
  if decide (length a = length b) then Ok (zip_with f a b)
  else match a, b with
       | [x], _ => Ok (f x <$> b)
       | _, [y] => Ok ((fun x => f x y) <$> a)
       | _, _ => Raise DimensionError
       end.

(** [cas.mtimes(a.T, b)] for two columns. *)
Definition dot (a b : list R) : R :=
  foldr add zero (zip_with mul a b).

(** [v[:2]] and [v[3]] on a casadi column: out of range raises. *)
Definition slice2 (v : list R) : result (list R) :=
  if decide (2 ≤ length v) then Ok (take 2 v) else Raise IndexError.

Definition index3 (v : list R) : result R :=
  match v !! 3 with
  | Some x => Ok x
  | None => Raise IndexError
  end.

(** Modelled from the spec: [vect_op.columnize] is in
    [awebox/tools/vector_operations.py], not part of the sources at hand;
    the value is "flattened to a column". A block is its column already. *)
Definition columnize (block : list R) : list R := block.

(** Modelled from the spec: [struct_op.subkeys] is in
    [awebox/tools/struct_operations.py], not part of the sources at hand;
    "for every state key in the schema", "order follows schema iteration
    order". *)
Definition subkeys (variables : struct R) : list string := keys variables.

(** *** Initial energy *)

Definition make_initial_energy_equality
    (initial_model_variables ref_variables : struct R) : result (list R) :=
  initial_energy ← getitem initial_model_variables "e";
  e_0 ← getitem ref_variables "e";
  elementwise sub initial_energy e_0.

(** *** Periodicity *)

Definition is_induction_variable_from_comparison_model
    (name : string) (o : options R) : bool :=
  let all_induction_labels := ["qaxi"; "qasym"; "uaxi"; "uasym"] in
  let is_induction_variable :=
    existsb (fun local_label => contains local_label name) all_induction_labels in
  let induction_label := get_label o in
  let is_enforced_model_variable := contains induction_label name in
  if is_induction_variable && negb is_enforced_model_variable
  then true else false.

(** The test of the loop body: [Ok true] when the key is constrained. *)
Definition periodicity_test (name : string) (o : options R) : result bool :=
  let from_comparison_model := is_induction_variable_from_comparison_model name o in
  c ← first_char name;
  if negb (String.eqb c "e") then
    c ← first_char name;
    Ok (negb (String.eqb c "w") && negb (String.eqb (first_two name) "dw")
        && negb from_comparison_model)
  else Ok false.

Fixpoint periodicity_loop (names : list string)
    (initial_model_variables terminal_model_variables : struct R)
    (o : options R) (periodicity_cstr : list R) : result (list R) :=
  match names with
  | [] => Ok periodicity_cstr
  | name :: names =>
      constrained ← periodicity_test name o;
      periodicity_cstr ←
        (if constrained : bool then
           initial_value ← columnize <$> getitem initial_model_variables name;
           final_value ← columnize <$> getitem terminal_model_variables name;
           difference ← elementwise sub initial_value final_value;
           Ok (periodicity_cstr ++ difference)
         else Ok periodicity_cstr);
      periodicity_loop names initial_model_variables terminal_model_variables
        o periodicity_cstr
  end.

Definition make_periodicity_equality
    (initial_model_variables terminal_model_variables : struct R)
    (o : options R) : result (list R) :=
  periodicity_loop (subkeys initial_model_variables)
    initial_model_variables terminal_model_variables o [].

(** *** Parameterized and plain state match *)

(** [x_struct.getCanonicalIndex(i)] for [i] in [range(x_struct.cat.shape[0])] *)
Definition canonical_indices (x_struct : list (string * nat))
    : list (string * nat) :=
  flat_map (fun kn => (fun state_dim => (kn.1, state_dim)) <$> seq 0 kn.2)
           x_struct.

Definition total_size (x_struct : list (string * nat)) : nat :=
  sum_list_with snd x_struct.

Fixpoint cut (x_struct : list (string * nat)) (v : list R) : struct R :=
  match x_struct with
  | [] => []
  | (key, n) :: x_struct => (key, take n v) :: cut x_struct (drop n v)
  end.

(** [x_struct(v)]: the vector [v] seen through the struct. *)
Definition wrap (x_struct : list (string * nat)) (v : list R)
    : result (struct R) :=
  if decide (length v = total_size x_struct) then Ok (cut x_struct v)
  else Raise DimensionError.

(** [splines[state_name + '_' + str(state_dim)](xi)] at every canonical
    index. *)
Definition spline_list (splines : string → R → R) (xi : R)
    (x_struct : list (string * nat)) : list R :=
  (fun i => splines (i.1 +:+ "_" +:+ str i.2) xi) <$> canonical_indices x_struct.

(** [set(x_struct.keys()) - set(black_list)], as Python enumerates it. *)
Definition variable_list (x_struct : list (string * nat))
    (black_list : list string) : list string :=
  iteration_order (list_difference (remove_dups (keys x_struct)) black_list).

(** The black list of [make_param_initial_conditions]. *)
Definition initial_black_list (m : model R) (o : options R)
    : result (list string) :=
  let black_list := [] in
  if String.eqb (trajectory_type o) "compromised_landing" &&
     String.eqb (compromised_landing_emergency_scenario o).1 "structural_damages"
  then
    let broken_kite := (compromised_landing_emergency_scenario o).2 in
    match parent_map m !! broken_kite with
    | Some broken_parent =>
        Ok (black_list ++ ["coeff" +:+ str broken_kite +:+ str broken_parent])
    | None => Raise (KeyError (str broken_kite))
    end
  else Ok black_list.

(** The list of blocks built by the final loop, each with the variable
    it constrains (the source keeps the blocks only). *)
Definition param_eq_list (states var_ref : struct R) (m : model R)
    (variables : list string) : result (list (string * list R)) :=
  mapM (fun variable =>
          actual ← getitem states variable;
          reference ← getitem var_ref variable;
          scaling ← getitem (scaling_x m) variable;
          scaled ← elementwise div reference scaling;
          block ← elementwise sub actual scaled;
          Ok (variable, block)) variables.

Definition param_initial_conditions_eq_list
    (initial_model_variables ref_variables : struct R) (xi : xi_dict R)
    (m : model R) (o : options R) : result (list (string * list R)) :=
  let initial_states := initial_model_variables in
  let xi_0 := xi_0 xi in
  let initial_splines := get_splines initial_model_variables xi "initial" in
  let x_struct := variables_dict_x m in
  var_ref_initial ← wrap x_struct (spline_list initial_splines xi_0 x_struct);
  black_list ← initial_black_list m o;
  param_eq_list initial_states var_ref_initial m
    (variable_list x_struct black_list).

Definition make_param_initial_conditions
    (initial_model_variables ref_variables : struct R) (xi : xi_dict R)
    (m : model R) (o : options R) : result (list R) :=
  eq_list ← param_initial_conditions_eq_list
              initial_model_variables ref_variables xi m o;
  Ok (concat (eq_list.*2)).

Definition initial_conditions_eq_list
    (initial_model_variables ref_variables : struct R) (xi : xi_dict R)
    (m : model R) (o : options R) : result (list (string * list R)) :=
  let initial_states := initial_model_variables in
  let x_struct := variables_dict_x m in
  let black_list := [] in
  mapM (fun variable =>
          actual ← getitem initial_states variable;
          reference ← getitem ref_variables variable;
          block ← elementwise sub actual reference;
          Ok (variable, block)) (variable_list x_struct black_list).

Definition make_initial_conditions
    (initial_model_variables ref_variables : struct R) (xi : xi_dict R)
    (m : model R) (o : options R) : result (list R) :=
  eq_list ← initial_conditions_eq_list
              initial_model_variables ref_variables xi m o;
  Ok (concat (eq_list.*2)).

Definition param_terminal_conditions_eq_list
    (terminal_model_variables ref_variables : struct R) (xi : xi_dict R)
    (m : model R) (o : options R) : result (list (string * list R)) :=
  let terminal_states := terminal_model_variables in
  let xi_f := xi_f xi in
  let terminal_splines := get_splines terminal_model_variables xi "terminal" in
  let x_struct := variables_dict_x m in
  var_ref_terminal ← wrap x_struct (spline_list terminal_splines xi_f x_struct);
  let black_list := [] in
  param_eq_list terminal_states var_ref_terminal m
    (variable_list x_struct black_list).

Definition make_param_terminal_conditions
    (terminal_model_variables ref_variables : struct R) (xi : xi_dict R)
    (m : model R) (o : options R) : result (list R) :=
  eq_list ← param_terminal_conditions_eq_list
              terminal_model_variables ref_variables xi m o;
  Ok (concat (eq_list.*2)).

(** *** Terminal position inequality *)

Definition radius_term (q : list R) (radius main_node_radius : R) : R :=
  div (sub (dot q q) (pow2 radius)) (pow2 main_node_radius).

Fixpoint position_loop (nodes : list nat) (terminal_variables : struct R)
    (parents : gmap nat nat) (kite_radius main_node_radius : R)
    (terminal_position_inequality : list R) : result (list R) :=
  match nodes with
  | [] => Ok terminal_position_inequality
  | node :: nodes =>
      parent ← match parents !! node with
               | Some parent => Ok parent
               | None => Raise (KeyError (str node))
               end;
      q ← getitem terminal_variables ("q" +:+ str node +:+ str parent);
      position_loop nodes terminal_variables parents kite_radius main_node_radius
        (terminal_position_inequality ++ [radius_term q kite_radius main_node_radius])
  end.

Definition make_terminal_position_inequality
    (terminal_variables : struct R) (m : model R) (o : options R)
    : result (list R) :=
  let main_node_radius := nominal_landing_main_node_radius o in
  let kite_radius := nominal_landing_kite_node_radius o in
  let kite_nodes := kite_nodes m in
  let parent_map := parent_map m in
  q10 ← getitem terminal_variables "q10";
  let terminal_position_inequality :=
    [radius_term q10 main_node_radius main_node_radius] in
  position_loop kite_nodes terminal_variables parent_map kite_radius
    main_node_radius terminal_position_inequality.

(** *** Terminal point *)

(** What one state appends to [terminal_point_constr]. *)
Definition terminal_point_blocks (terminal_variables ref_variables : struct R)
    (state : string) : result (list R) :=
  let '(state_name, _) := split_name_and_node_identifier state in
  if py_in state_name ["q"; "dq"] then
    t ← getitem terminal_variables state ≫= slice2;
    r ← getitem ref_variables state ≫= slice2;
    elementwise sub t r
  else if String.eqb state_name "r" then
    t ← getitem terminal_variables state ≫= slice2;
    r ← getitem ref_variables state ≫= slice2;
    first ← elementwise sub t r;
    t3 ← getitem terminal_variables state ≫= index3;
    r3 ← getitem ref_variables state ≫= index3;
    Ok (first ++ [sub t3 r3])
  else
    t ← getitem terminal_variables state;
    r ← getitem ref_variables state;
    elementwise sub t r.

Definition make_terminal_point_constraint
    (terminal_variables ref_variables : struct R) (m : model R)
    : result (list R) :=
  terminal_point_constr ←
    mapM (terminal_point_blocks terminal_variables ref_variables)
         (keys (variables_dict_x m));
  Ok (concat terminal_point_constr).

(** *** Assembly of the initial constraints *)

Definition get_initial_constraints (o : options R)
    (initial_variables ref_variables : struct R) (m : model R)
    (xi : xi_dict R) : result (list (Constraint R)) :=
  let cstr_list := [] in
  cstr_list ←
    (if bool_decide ("e" ∈ keys (variables_dict_x m)) then
       init_energy_eq ← make_initial_energy_equality initial_variables ref_variables;
       let init_energy_cstr :=
         {| expr := init_energy_eq; name := "initial_energy"; ctype := eq_cstr |} in
       Ok (cstr_list ++ [init_energy_cstr])
     else Ok cstr_list);
  let c := Classifier.get_operation_conditions o in
  cstr_list ←
    (if Classifier.param_initial_conditions c then
       init_param_eq ← make_param_initial_conditions
                         initial_variables ref_variables xi m o;
       let init_param_cstr :=
         {| expr := init_param_eq; name := "param_initial_conditions";
            ctype := eq_cstr |} in
       Ok (cstr_list ++ [init_param_cstr])
     else Ok cstr_list);
  cstr_list ←
    (if Classifier.initial_conditions c then
       init_eq ← make_initial_conditions initial_variables ref_variables xi m o;
       let init_cstr :=
         {| expr := init_eq; name := "initial_conditions"; ctype := eq_cstr |} in
       Ok (cstr_list ++ [init_cstr])
     else Ok cstr_list);
  Ok cstr_list.

End Builders.
End Builders.

(** ** Vocabulary of the statements *)

Module AggregatorSpec.
Import Aggregator.

Definition unsized_in (d : pydict) (n : string) : bool :=
  match getitem d n ≫= size with Ok _ => false | Raise _ => true end.

Definition dropped (d : pydict) : pydict :=
  filter (fun kv => has_size kv.2 = false) d.

Definition cleared (names : list string) (d : pydict) : pydict :=
  filter (fun kv => kv.1 ∉ names ∨ has_size kv.2 = true) d.

Definition pruned (l : nat) (d : pydict) (s : state) : state :=
  {| heap := <[l := survivors d]> (heap s);
     log := log s ++ (warning <$> keys (dropped d)) |}.

Definition branch_entries (name : string) (d : pydict) : list entry :=
  if bool_decide (survivors d = []) then []
  else [entry_struct name (sized d)].

Definition aggregated (le li : nat) (de di : pydict) (s : state) : state :=
  {| heap := <[li := survivors di]> (<[le := survivors de]> (heap s));
     log := log s ++ (warning <$> keys (dropped de)) ++
            (if decide (le = li) then [] else warning <$> keys (dropped di)) |}.

(** The claim that degenerate entries never reach the struct. *)
Definition zero_size_entries_dropped (eqs_dict ineqs_dict : pyobj)
    (s : state) : Prop :=
  ∀ st s', make_constraint_struct eqs_dict ineqs_dict s = Ok (st, s') →
    ∀ lf, lf ∈ leaves st → leaf_size lf ≠ 0.

(** Entries [A(size=0), B(size=3), C(size=0), D(size=2)] as equalities,
    and a list next to a matrix as inequalities. *)
Definition example_eqs : list (string * pyvalue) :=
  [("A", Casadi 0 1); ("B", Casadi 3 1); ("C", Casadi 0 1); ("D", Casadi 2 1)].

Definition example_ineqs : list (string * pyvalue) :=
  [("E", PyList 0); ("F", Casadi 1 1)].

Definition example_entries : state :=
  {| heap := {[ 0 := example_eqs; 1 := example_ineqs ]}; log := [] |}.

End AggregatorSpec.

Module BuildersSpec.
Section BuildersSpec.
Context {R : Type}.
Variable zero : R.
Variables add sub mul div : R → R → R.
Variable pow2 : R → R.
Variable get_label : options R → string.
Variable split_name_and_node_identifier : string → string * string.
Variable get_splines : struct R → xi_dict R → string → string → R → R.
Variable iteration_order : list string → list string.

(** The block stored under [key]; empty when there is none. *)
Definition block (v : struct R) (key : string) : list R :=
  match getitem v key with
  | Ok b => b
  | Raise _ => []
  end.

(** Keys and block sizes of a state vector. *)
Definition schema_of (v : struct R) : list (string * nat) :=
  (fun kv => (kv.1, length kv.2)) <$> v.

(** The size the schema declares for [key]. *)
Definition declared_size (x_struct : list (string * nat)) (key : string) : nat :=
  match getitem x_struct key with
  | Ok n => n
  | Raise _ => 0
  end.

(** Entry by entry, [a[key] - b[key]]. *)
Definition difference (a b : struct R) (key : string) : list R :=
  zip_with sub (block a key) (block b key).

(** Periodicity: the keys left unconstrained, in the words of the claim. *)
Definition periodicity_skipped (o : options R) (name : string) : bool :=
  String.prefix "e" name || String.prefix "w" name || String.prefix "dw" name
  || Builders.is_induction_variable_from_comparison_model get_label name o.

(** Terminal point: the components constrained for a state with the given
    root and block size, in the words of the claim. *)
Definition constrained_components (state_name : string) (n : nat) : list nat :=
  if bool_decide (state_name = "q" ∨ state_name = "dq") then [0; 1]
  else if bool_decide (state_name = "r") then [0; 1; 3]
  else seq 0 n.

Definition select (components : list nat) (v : list R) : list R :=
  omap (fun i => v !! i) components.

Definition terminal_point_ready (terminal_variables ref_variables : struct R)
    (state : string) : Prop :=
  ∃ t r, getitem terminal_variables state = Ok t ∧
         getitem ref_variables state = Ok r ∧
         length t = length r ∧
         ∀ i, i ∈ constrained_components
                     (split_name_and_node_identifier state).1 (length t) →
              i < length t.

(** Terminal position: the parent of a node, and the two kinds of term. *)
Definition parent_of (m : model R) (node : nat) : nat :=
  default 0 (parent_map m !! node).

Definition norm2 (q : list R) : R := Builders.dot zero add mul q q.

Definition main_node_term (terminal_variables : struct R) (o : options R) : R :=
  div (sub (norm2 (block terminal_variables "q10"))
           (pow2 (nominal_landing_main_node_radius o)))
      (pow2 (nominal_landing_main_node_radius o)).

Definition kite_node_term (terminal_variables : struct R) (m : model R)
    (o : options R) (node : nat) : R :=
  div (sub (norm2 (block terminal_variables
                     ("q" +:+ str node +:+ str (parent_of m node))))
           (pow2 (nominal_landing_kite_node_radius o)))
      (pow2 (nominal_landing_main_node_radius o)).

(** The claim that the parameterized initial conditions come out in the
    order of the schema. *)
Definition blocks_in_schema_order
    (initial_model_variables ref_variables : struct R) (xi : xi_dict R)
    (m : model R) (o : options R) : Prop :=
  ∀ black_list eq_list,
    Builders.initial_black_list m o = Ok black_list →
    Builders.param_initial_conditions_eq_list sub div get_splines
      iteration_order initial_model_variables ref_variables xi m o
      = Ok eq_list →
    eq_list.*1 = list_difference (keys (variables_dict_x m)) black_list.

(** [eq_list] constrains every key of the schema but those of [excluded]. *)
Definition constrains_all_but (excluded : list string) (m : model R)
    (eq_list : list (string * list R)) : Prop :=
  ∀ key, key ∈ eq_list.*1 ↔ key ∈ keys (variables_dict_x m) ∧ key ∉ excluded.

Definition broken_kite_coefficient (m : model R) (o : options R) : string :=
  let broken_kite := (compromised_landing_emergency_scenario o).2 in
  "coeff" +:+ str broken_kite +:+ str (parent_of m broken_kite).

(** The claim that both parameterized builders leave out the coefficient
    state of the broken kite, and only that. *)
Definition both_exclude_broken_kite_coefficient
    (initial_model_variables terminal_model_variables ref_variables : struct R)
    (xi : xi_dict R) (m : model R) (o : options R) : Prop :=
  (∀ eq_list,
     Builders.param_initial_conditions_eq_list sub div get_splines
       iteration_order initial_model_variables ref_variables xi m o
       = Ok eq_list →
     constrains_all_but [broken_kite_coefficient m o] m eq_list) ∧
  (∀ eq_list,
     Builders.param_terminal_conditions_eq_list sub div get_splines
       iteration_order terminal_model_variables ref_variables xi m o
       = Ok eq_list →
     constrains_all_but [broken_kite_coefficient m o] m eq_list).

(** The standing assumptions of the parameterized builders: unique keys,
    state vector and scaling on the schema of the model, and an
    enumeration of the variable set that is a permutation of it. *)
Definition param_ready (states : struct R) (m : model R)
    (black_list : list string) : Prop :=
  NoDup (keys (variables_dict_x m)) ∧
  schema_of states = variables_dict_x m ∧
  schema_of (scaling_x m) = variables_dict_x m ∧
  iteration_order (list_difference (remove_dups (keys (variables_dict_x m)))
                                   black_list)
    ≡ₚ list_difference (remove_dups (keys (variables_dict_x m))) black_list.

End BuildersSpec.
End BuildersSpec.

(** Sample configurations, over integer entries. *)
Definition sample_options (type : string) (scenario : string * nat) : options Z :=
  {| trajectory_type := type;
     mpc_terminal_point_constr := true;
     compromised_landing_emergency_scenario := scenario;
     nominal_landing_main_node_radius := 2%Z;
     nominal_landing_kite_node_radius := 3%Z |}.

Definition launch_options : options Z := sample_options "launch" ("", 0).
Definition hover_options : options Z := sample_options "hover" ("broken_battery", 2).

(** A dual-kite sample: main node 1 on the ground station 0, kites 2 and 3
    on node 1, as in [examples/dual_kites_power_curve.py]. *)
Definition sample_schema : list (string * nat) :=
  [("q10", 3); ("dq10", 3); ("r10", 9); ("q21", 3); ("q31", 3);
   ("coeff21", 2); ("e", 1)].

Definition sample_states : struct Z :=
  [("q10", [3; 4; 12]); ("dq10", [1; 0; 2]);
   ("r10", [1; 0; 0; 0; 1; 0; 0; 0; 1]); ("q21", [6; 8; 24]);
   ("q31", [5; 12; 84]); ("coeff21", [7; 8]); ("e", [9])]%Z.

Definition sample_reference : struct Z :=
  [("q10", [1; 1; 1]); ("dq10", [0; 0; 0]);
   ("r10", [0; 0; 0; 0; 0; 0; 0; 0; 0]); ("q21", [2; 2; 2]);
   ("q31", [3; 3; 3]); ("coeff21", [1; 1]); ("e", [4])]%Z.

Definition sample_model : model Z :=
  {| variables_dict_x := sample_schema;
     scaling_x := [("q10", [1; 1; 1]); ("dq10", [1; 1; 1]);
                   ("r10", [1; 1; 1; 1; 1; 1; 1; 1; 1]); ("q21", [1; 1; 1]);
                   ("q31", [1; 1; 1]); ("coeff21", [2; 2]); ("e", [1])]%Z;
     kite_nodes := [2; 3];
     parent_map := {[ 1 := 0; 2 := 1; 3 := 1 ]} |}.

Definition sample_xi : xi_dict Z := {| xi_0 := 0%Z; xi_f := 1%Z |}.

Definition sample_splines (variables : struct Z) (xi : xi_dict Z)
    (phase key : string) (x : Z) : Z := x.

Definition sample_label (o : options Z) : string := "qaxi".

Definition transition_options : options Z := sample_options "transition" ("", 0).
Definition damaged_options : options Z :=
  sample_options "compromised_landing" ("structural_damages", 2).
Definition landing_options : options Z := sample_options "nominal_landing" ("", 0).
Definition power_cycle_options : options Z := sample_options "power_cycle" ("", 0).

(** [x ** 2] on integers. *)
Definition zsq (x : Z) : Z := (x ^ 2)%Z.

(** Two enumerations of a set: back to front, and front to back. *)
Definition reversed_order (l : list string) : list string := reverse l.
Definition schema_order (l : list string) : list string := l.

(** A single tether node with two states. *)
Definition point_states : struct Z :=
  [("q10", [3; 4; 12]); ("dq10", [1; 0; 2])]%Z.

Definition point_model : model Z :=
  {| variables_dict_x := [("q10", 3); ("dq10", 3)];
     scaling_x := [("q10", [1; 1; 1]); ("dq10", [1; 1; 1])]%Z;
     kite_nodes := [];
     parent_map := {[ 1 := 0 ]} |}.

(** ** Assembly of the terminal and periodic constraints *)

Module Assemblers.
Section Assemblers.
Context {R : Type}.
Variable zero : R.
Variables add sub mul div : R → R → R.
Variable pow2 : R → R.
Variable get_label : options R → string.
Variable split_name_and_node_identifier : string → string * string.
Variable get_splines : struct R → xi_dict R → string → string → R → R.
Variable iteration_order : list string → list string.

Definition get_terminal_constraints (o : options R)
    (terminal_variables ref_variables : struct R) (m : model R)
    (xi : xi_dict R) : result (list (Constraint R)) :=
  let cstr_list := [] in
  let c := Classifier.get_operation_conditions o in
  cstr_list ←
    (if Classifier.param_terminal_conditions c then
       terminal_param_eq ←
         Builders.make_param_terminal_conditions sub div get_splines
           iteration_order terminal_variables ref_variables xi m o;
       let terminal_param_cstr :=
         {| expr := terminal_param_eq; name := "param_terminal_conditions";
            ctype := eq_cstr |} in
       Ok (cstr_list ++ [terminal_param_cstr])
     else Ok cstr_list);
  cstr_list ←
    (if Classifier.terminal_inequalities c then
       terminal_ineq ←
         Builders.make_terminal_position_inequality zero add sub mul div pow2
           terminal_variables m o;
       let terminal_ineq_cstr :=
         {| expr := terminal_ineq; name := "terminal_inequalities";
            ctype := ineq_cstr |} in
       Ok (cstr_list ++ [terminal_ineq_cstr])
     else Ok cstr_list);
  cstr_list ←
    (if Classifier.terminal_conditions c then
       terminal_eq ←
         Builders.make_terminal_point_constraint sub
           split_name_and_node_identifier terminal_variables ref_variables m;
       let terminal_eq_cstr :=
         {| expr := terminal_eq; name := "terminal_equalities";
            ctype := eq_cstr |} in
       Ok (cstr_list ++ [terminal_eq_cstr])
     else Ok cstr_list);
  Ok cstr_list.

Definition get_periodic_constraints (o : options R)
    (initial_model_variables terminal_model_variables : struct R)
    : result (list (Constraint R)) :=
  let cstr_list := [] in
  let c := Classifier.get_operation_conditions o in
  cstr_list ←
    (if Classifier.periodic c then
       periodic_eq ←
         Builders.make_periodicity_equality sub get_label
           initial_model_variables terminal_model_variables o;
       let cstr :=
         {| expr := periodic_eq; name := "state_periodicity";
            ctype := eq_cstr |} in
       Ok (cstr_list ++ [cstr])
     else Ok cstr_list);
  Ok cstr_list.

End Assemblers.
End Assemblers.

(** ** Vocabulary of the further statements *)

(** [sub] occurs in [s]. *)
Definition occurs_in (sub s : string) : Prop :=
  ∃ pre post, s = pre +:+ sub +:+ post.

(** The key under which the position of [node] is stored. *)
Definition position_key (node parent : nat) : string :=
  "q" +:+ str node +:+ str parent.

Module FurtherSpec.
Section FurtherSpec.
Context {R : Type}.
Variables sub div : R → R → R.
Variable split_name_and_node_identifier : string → string * string.

(** The reference block of [key]: its splines at [xi], one per dimension. *)
Definition spline_block (splines : string → R → R) (xi : R)
    (key : string) (n : nat) : list R :=
  (fun state_dim => splines (key +:+ "_" +:+ str state_dim) xi) <$> seq 0 n.

Definition spline_reference (splines : string → R → R) (xi : R)
    (x_struct : list (string * nat)) : struct R :=
  (fun kn => (kn.1, spline_block splines xi kn.1 kn.2)) <$> x_struct.

(** [actual[key] - reference[key] / scaling[key]], entry by entry. *)
Definition scaled_difference (states reference : struct R) (m : model R)
    (key : string) : list R :=
  zip_with sub (BuildersSpec.block states key)
    (zip_with div (BuildersSpec.block reference key)
                  (BuildersSpec.block (scaling_x m) key)).

(** The number of rows a state contributes to the terminal point. *)
Definition terminal_point_rows (terminal_variables : struct R)
    (state : string) : nat :=
  length (BuildersSpec.constrained_components
            (split_name_and_node_identifier state).1
            (length (BuildersSpec.block terminal_variables state))).

(** What the terminal position inequality needs to find. *)
Definition positions_present (terminal_variables : struct R) (m : model R)
    : Prop :=
  (∃ q10, getitem terminal_variables "q10" = Ok q10) ∧
  ∀ node, node ∈ kite_nodes m → ∃ parent q,
    parent_map m !! node = Some parent ∧
    getitem terminal_variables (position_key node parent) = Ok q.

End FurtherSpec.
End FurtherSpec.

(** A periodic sample whose terminal vector has no energy state. *)
Definition wake_states : struct Z :=
  [("q10", [3; 4; 12]); ("e", [9]); ("wx_1", [5]); ("dwx_1", [6]);
   ("qaxi1", [7]); ("uasym1", [8])]%Z.

Definition wake_terminal : struct Z :=
  [("q10", [1; 1; 1]); ("qaxi1", [2])]%Z.

(** The name of a top-level entry of a constraint struct. *)
Definition entry_name (e : Aggregator.entry) : string :=
  match e with
  | Aggregator.entry_struct n _ => n
  end.

Definition battery_options : options Z :=
  sample_options "compromised_landing" ("broken_battery", 2).

Definition unknown_kite_options : options Z :=
  sample_options "compromised_landing" ("structural_damages", 7).

(** A rotation state cut short. *)
Definition short_states : struct Z := [("r10", [1; 0; 0])]%Z.

Definition short_model : model Z :=
  {| variables_dict_x := [("r10", 3)];
     scaling_x := [("r10", [1; 1; 1])]%Z;
     kite_nodes := [];
     parent_map := {[ 1 := 0 ]} |}.

(** Periodicity: the keys left unconstrained, stated on the names alone. *)
Definition starts_with (p s : string) : Prop := ∃ rest, s = p +:+ rest.

Definition periodicity_excluded {R : Type} (get_label : options R → string)
    (o : options R) (name : string) : Prop :=
  starts_with "e" name ∨ starts_with "w" name ∨ starts_with "dw" name ∨
  ((∃ label, label ∈ ["qaxi"; "qasym"; "uaxi"; "uasym"] ∧ occurs_in label name) ∧
   ¬ occurs_in (get_label o) name).

(** A terminal vector on the schema of [wake_states]. *)
Definition wake_final : struct Z :=
  [("q10", [1; 1; 1]); ("e", [0]); ("wx_1", [1]); ("dwx_1", [1]);
   ("qaxi1", [2]); ("uasym1", [3])]%Z.

(** * Properties *)

Ltac by_decide := apply (bool_decide_unpack _); vm_compute; exact I.

(** ** Ordered mappings *)

Section AggregatorFacts.
Set Default Proof Using "Type".
Import Aggregator AggregatorSpec.

Lemma getitem_elem_of {V} (d : list (string * V)) k v :
NoDup (keys d) → (k, v) ∈ d → getitem d k = Ok v.
Proof.
induction d as [|[k' v'] d IH]; intros Hnd Hin; [by apply elem_of_nil in Hin|].
apply NoDup_cons in Hnd as [Hk' Hnd]. cbn.
apply elem_of_cons in Hin as [Heq|Hin].
- inversion Heq; subst. by rewrite String.eqb_refl.
- destruct (String.eqb_spec k' k) as [->|Hne]; [|by apply IH].
  exfalso. apply Hk'. apply list_elem_of_fmap. by exists (k, v).
Qed.

Lemma getitem_Ok_elem_of {V} (d : list (string * V)) k v :
getitem d k = Ok v → (k, v) ∈ d.
Proof.
induction d as [|[k' v'] d IH]; cbn; [done|].
destruct (String.eqb_spec k' k) as [->|Hne].
- intros [= ->]. apply elem_of_cons; by left.
- intros H. apply elem_of_cons; right; by apply IH.
Qed.

Lemma getitem_key_elem_of {V} (d : list (string * V)) k :
k ∈ keys d → ∃ v, getitem d k = Ok v.
Proof.
induction d as [|[k' v'] d IH]; cbn; [by intros ?%elem_of_nil|].
intros Hin. destruct (String.eqb_spec k' k) as [->|Hne]; [by eexists|].
apply elem_of_cons in Hin as [?|Hin]; [congruence|by apply IH].
Qed.

Lemma getitem_pop_ne (d : pydict) name n :
n ≠ name → getitem (pop d name) n = getitem d n.
Proof.
intros Hne. unfold pop. induction d as [|[k v] d IH]; [done|].
rewrite filter_cons. cbn [fst]. case_decide as Hk; cbn.
- by rewrite IH.
- subst k.
  destruct (String.eqb_spec name n); [congruence|done].
Qed.

Lemma filter_ext_elem_of {A} (P Q : A → Prop) `{∀ x, Decision (P x)}
  `{∀ x, Decision (Q x)} (l : list A) :
(∀ x, x ∈ l → (P x ↔ Q x)) → filter P l = filter Q l.
Proof.
induction l as [|x l IH]; intros HPQ; [done|].
rewrite !filter_cons.
assert (P x ↔ Q x) as Hx by (apply HPQ; left).
rewrite IH; [|intros y Hy; apply HPQ; by right].
repeat case_decide; tauto || done.
Qed.

Lemma filter_all {A} (P : A → Prop) `{∀ x, Decision (P x)} (l : list A) :
(∀ x, x ∈ l → P x) → filter P l = l.
Proof.
induction l as [|x l IH]; intros HP; [done|].
rewrite filter_cons. rewrite decide_True by (apply HP; left).
f_equal. apply IH. intros y Hy. apply HP. by right.
Qed.

Lemma keys_pop (d : pydict) name :
keys (pop d name) = filter (fun k => k ≠ name) (keys d).
Proof.
unfold pop, keys. induction d as [|[k v] d IH]; [done|].
rewrite fmap_cons, !filter_cons. cbn [fst].
case_decide; [rewrite fmap_cons|]; by rewrite IH.
Qed.

Lemma clear_body_spec l name d s v :
heap s !! l = Some d → getitem d name = Ok v →
clear_body l name s =
  if has_size v then Ok s
  else Ok (heap_set l (pop d name) (warn (warning name) s)).
Proof.
intros Hl Hv. unfold clear_body, heap_get, has_size. rewrite Hl. cbn.
rewrite Hv. cbn. by destruct (size v).
Qed.

Lemma for_each_clear_body l names : ∀ d s,
heap s !! l = Some d → NoDup (keys d) → NoDup names → names ⊆ keys d →
for_each (clear_body l) names s =
  Ok {| heap := <[l := cleared names d]> (heap s);
        log := log s ++ (warning <$> filter (fun n => unsized_in d n = true) names) |}.
Proof.
induction names as [|name names IH]; intros d s Hl Hd Hnd Hsub.
- cbn. unfold cleared. rewrite filter_all by (intros; left; apply not_elem_of_nil).
  rewrite insert_id by done. rewrite app_nil_r. by destruct s.
- apply NoDup_cons in Hnd as [Hname Hnd].
  assert (name ∈ keys d) as Hin by (apply Hsub; left).
  destruct (getitem_key_elem_of d name Hin) as [v Hv].
  cbn [for_each]. rewrite (clear_body_spec l name d s v) by done.
  assert (unsized_in d name = negb (has_size v)) as Hu.
  { unfold unsized_in, has_size. rewrite Hv. cbn. by destruct (size v). }
  rewrite filter_cons.
  destruct (has_size v) eqn:Hsz; cbn [mbind result_bind].
  + rewrite decide_False by (by rewrite Hu).
    rewrite (IH d s); [|done..|intros n Hn; apply Hsub; by right].
    do 3 f_equal. unfold cleared. apply filter_ext_elem_of.
    intros [k w] Hkw. cbn. split.
    2:{ intros [Hk|?]; [left|by right]. intros Hn. apply Hk. by right. }
    intros [Hk|?]; [|by right]. destruct (decide (k = name)) as [->|];
      [|left; by intros [?|?]%elem_of_cons].
    right. apply (getitem_elem_of d) in Hkw; [|done].
    rewrite Hv in Hkw. by injection Hkw as <-.
  + rewrite decide_True by (by rewrite Hu).
    erewrite IH; cycle 1.
    { cbn. apply lookup_insert_eq. }
    { rewrite keys_pop. by apply NoDup_filter. }
    { done. }
    { rewrite keys_pop. intros n Hn. apply list_elem_of_filter.
      split; [by intros ->|].
      apply Hsub. by right. }
    cbn. f_equal. f_equal.
    * rewrite insert_insert_eq. f_equal. unfold cleared, pop.
      rewrite list_filter_filter. apply filter_ext_elem_of.
      intros [k w] Hkw. cbn. split.
      -- intros [[Hk|?] Hne]; [left|by right]. by intros [?|?]%elem_of_cons.
      -- intros [Hk|Hs].
         ++ split; [left; intros Hn; apply Hk; by right|].
            intros ->. apply Hk. left.
         ++ assert (k ≠ name) as Hne.
            { intros ->. apply (getitem_elem_of d) in Hkw; [|done].
              rewrite Hv in Hkw. injection Hkw as <-. congruence. }
            split; [by right|done].
    * rewrite <- app_assoc. f_equal. cbn. f_equal. f_equal.
      apply filter_ext_elem_of. intros n Hn. unfold unsized_in.
      rewrite getitem_pop_ne; [done|by intros ->].
Qed.

(** The state after pruning the dictionary [d] stored at [l]. *)

Lemma unsized_in_keys (d : pydict) :
NoDup (keys d) →
filter (fun n => unsized_in d n = true) (keys d) = keys (dropped d).
Proof.
intros Hnd. unfold dropped.
assert (∀ l : pydict, l ⊆ d →
  filter (fun n => unsized_in d n = true) (keys l)
  = keys (filter (fun kv => has_size kv.2 = false) l)) as Hgen.
{ induction l as [|[k v] l IH]; intros Hsub; [done|].
  unfold keys in *. rewrite fmap_cons, !filter_cons. cbn [fst snd].
  assert (unsized_in d k = negb (has_size v)) as Hu.
  { unfold unsized_in, has_size. rewrite (getitem_elem_of d k v Hnd).
    - cbn. by destruct (size v).
    - apply Hsub. left. }
  rewrite IH by (intros x Hx; apply Hsub; by right).
  destruct (has_size v).
  - rewrite decide_False by (by rewrite Hu). by rewrite decide_False.
  - rewrite decide_True by (by rewrite Hu). by rewrite decide_True. }
by apply Hgen.
Qed.

Lemma clear_empty_keys_Dict l d s :
heap s !! l = Some d → NoDup (keys d) →
clear_empty_keys (Dict l) s = Ok (Dict l, pruned l d s).
Proof.
intros Hl Hnd. unfold clear_empty_keys, truthy, heap_get. rewrite Hl.
cbn [mbind result_bind]. case_bool_decide as Hd; cbn [negb].
- subst d. unfold pruned, survivors, dropped. cbn.
  rewrite insert_id by done. rewrite app_nil_r. by destruct s.
- rewrite (for_each_clear_body l _ d s) by done. cbn [mbind result_bind].
  unfold pruned. do 3 f_equal.
  + f_equal. unfold cleared, survivors. apply filter_ext_elem_of.
    intros [k v] Hkv. cbn. split; [|by right].
    intros [Hk|?]; [|done]. exfalso. apply Hk.
    apply list_elem_of_fmap. by exists (k, v).
  + by rewrite unsized_in_keys.
Qed.

Lemma survivors_idem (d : pydict) : survivors (survivors d) = survivors d.
Proof.
unfold survivors. rewrite list_filter_filter.
apply filter_ext_elem_of. tauto.
Qed.

Lemma dropped_survivors (d : pydict) : dropped (survivors d) = [].
Proof.
unfold dropped, survivors. rewrite list_filter_filter.
induction d as [|kv d IH]; [done|].
rewrite filter_cons, IH. rewrite decide_False; [done|].
intros [? ?]; congruence.
Qed.

Lemma NoDup_keys_survivors (d : pydict) :
NoDup (keys d) → NoDup (keys (survivors d)).
Proof.
unfold keys, survivors. induction d as [|[k v] d IH]; [done|].
rewrite fmap_cons, NoDup_cons. intros [Hk Hnd].
rewrite filter_cons. case_decide; [|by apply IH].
rewrite fmap_cons, NoDup_cons. split; [|by apply IH].
intros Hin. apply Hk. apply list_elem_of_fmap in Hin as [kv [-> Hkv]].
apply list_elem_of_filter in Hkv as [_ Hkv].
apply list_elem_of_fmap. by exists kv.
Qed.

Lemma sized_survivors (d : pydict) : sized (survivors d) = sized d.
Proof.
unfold sized, survivors, has_size. induction d as [|[k v] d IH]; [done|].
rewrite filter_cons. cbn [snd fst]. destruct (size v) eqn:Hv.
- rewrite decide_True by done. cbn. by rewrite Hv, IH.
- rewrite decide_False by done. cbn. by rewrite Hv.
Qed.

Lemma keys_sized (d : pydict) : (sized d).*1 = keys (survivors d).
Proof.
unfold sized, survivors, has_size, keys. induction d as [|[k v] d IH]; [done|].
rewrite filter_cons. cbn [snd fst omap list_omap]. destruct (size v) eqn:Hv.
- rewrite decide_True by done. rewrite !fmap_cons. cbn [fst]. f_equal. apply IH.
- rewrite decide_False by done. apply IH.
Qed.

Lemma shape_entries_survivors (d : pydict) :
NoDup (keys d) → shape_entries (survivors d) = Ok (sized d).
Proof.
intros Hnd. rewrite <- sized_survivors.
pose proof (NoDup_keys_survivors d Hnd) as Hnd'.
assert (∀ kv, kv ∈ survivors d → has_size kv.2 = true) as Hall.
{ intros kv Hkv. unfold survivors in Hkv.
  by apply list_elem_of_filter in Hkv as [? _]. }
revert Hnd' Hall. generalize (survivors d) as d'. clear d Hnd.
intros d Hnd Hall. unfold shape_entries.
assert (∀ l : pydict, l ⊆ d →
  mapM (fun name => v ← getitem d name; shape ← size v; Ok (name, shape))
       (keys l) = Ok (sized l)) as Hgen.
{ induction l as [|[k v] l IH]; intros Hsub; [done|].
  cbn. rewrite (getitem_elem_of d k v Hnd) by (apply Hsub; left). cbn.
  assert (has_size v = true) as Hv by (apply (Hall (k, v)), Hsub; left).
  unfold has_size in Hv. destruct (size v) as [shape|]; [|done]. cbn.
  unfold keys in IH. rewrite IH by (intros x Hx; apply Hsub; by right).
  done. }
by apply Hgen.
Qed.

Lemma branch_Dict name l d s entry_list :
heap s !! l = Some (survivors d) → NoDup (keys d) →
branch name (Dict l) s entry_list = Ok (entry_list ++ branch_entries name d).
Proof.
intros Hl Hnd. unfold branch, truthy, heap_get, branch_entries. rewrite Hl.
cbn [mbind result_bind]. case_bool_decide; cbn [negb].
- by rewrite app_nil_r.
- by rewrite shape_entries_survivors.
Qed.

Lemma make_entry_list_Dict le li de di s :
heap s !! le = Some de → heap s !! li = Some di →
NoDup (keys de) → NoDup (keys di) →
make_entry_list (Dict le) (Dict li) s =
  Ok (branch_entries "equality" de ++ branch_entries "inequality" di,
      aggregated le li de di s).
Proof.
intros Hle Hli Hde Hdi. unfold make_entry_list.
rewrite (clear_empty_keys_Dict le de s) by done. cbn [mbind result_bind].
set (d2 := if decide (le = li) then survivors de else di).
assert (heap (pruned le de s) !! li = Some d2) as Hli2.
{ unfold pruned, d2. cbn. case_decide as Heq.
  - subst li. apply lookup_insert_eq.
  - by rewrite lookup_insert_ne. }
assert (NoDup (keys d2)) as Hd2.
{ unfold d2. case_decide; [by apply NoDup_keys_survivors|done]. }
assert (survivors d2 = survivors di) as Hs2.
{ unfold d2. case_decide as Heq; [|done]. subst li.
  rewrite survivors_idem. congruence. }
rewrite (clear_empty_keys_Dict li d2 _ Hli2 Hd2). cbn [mbind result_bind].
assert (pruned li d2 (pruned le de s) = aggregated le li de di s) as ->.
{ unfold pruned, aggregated. cbn. rewrite Hs2, <- app_assoc. do 3 f_equal.
  unfold d2. case_decide; [by rewrite dropped_survivors|done]. }
rewrite (branch_Dict "equality" le de); [|cbn|done].
2:{ destruct (decide (le = li)) as [<-|Hne].
    - rewrite lookup_insert_eq. congruence.
    - rewrite lookup_insert_ne by done. apply lookup_insert_eq. }
cbn [mbind result_bind].
rewrite (branch_Dict "inequality" li di); [done|cbn|done].
apply lookup_insert_eq.
Qed.
End AggregatorFacts.

Section AggregatorTheorems.
Set Default Proof Using "Type".
Import Aggregator AggregatorSpec.

Lemma branch_of_entries (de di : list (string * pyvalue)) :
branch_of "equality"
  (branch_entries "equality" de ++ branch_entries "inequality" di) = sized de ∧
branch_of "inequality"
  (branch_entries "equality" de ++ branch_entries "inequality" di) = sized di.
Proof.
assert (∀ d : list (string * pyvalue), survivors d = [] → sized d = []) as Hnil.
{ intros d Hd. apply (f_equal keys) in Hd. rewrite <- keys_sized in Hd.
  by apply fmap_nil_inv in Hd. }
unfold branch_entries.
do 2 case_bool_decide; cbn; rewrite ?app_nil_r; auto using eq_sym.
Qed.

Lemma leaves_entries (de di : list (string * pyvalue)) :
leaves (branch_entries "equality" de ++ branch_entries "inequality" di)
= sized de ++ sized di.
Proof.
assert (∀ d : list (string * pyvalue), survivors d = [] → sized d = []) as Hnil.
{ intros d Hd. apply (f_equal keys) in Hd. rewrite <- keys_sized in Hd.
  by apply fmap_nil_inv in Hd. }
unfold branch_entries, leaves.
do 2 case_bool_decide; cbn; rewrite ?app_nil_r;
  repeat match goal with H : survivors _ = [] |- _ => rewrite (Hnil _ H); clear H end;
  by rewrite ?app_nil_r.
Qed.

Lemma branch_entries_survivors name (d : list (string * pyvalue)) :
branch_entries name (survivors d) = branch_entries name d.
Proof. unfold branch_entries. by rewrite survivors_idem, sized_survivors. Qed.

Lemma aggregated_fixpoint le li (de di : list (string * pyvalue)) s :
heap s !! le = Some de → heap s !! li = Some di →
aggregated le li (survivors de) (survivors di) (aggregated le li de di s)
= aggregated le li de di s.
Proof.
intros Hle Hli. unfold aggregated at 1. rewrite !survivors_idem, !dropped_survivors.
assert (heap (aggregated le li de di s) !! le = Some (survivors de)) as H1.
{ cbn. destruct (decide (le = li)) as [<-|Hne].
  - rewrite lookup_insert_eq. congruence.
  - rewrite lookup_insert_ne by done. apply lookup_insert_eq. }
assert (heap (aggregated le li de di s) !! li = Some (survivors di)) as H2.
{ cbn. apply lookup_insert_eq. }
rewrite (insert_id _ le) by done. rewrite (insert_id _ li) by done.
cbn [fmap list_fmap keys]. case_decide; rewrite !app_nil_r; by destruct (aggregated le li de di s).
Qed.

(** C1 (as amended). Aggregation keeps the entries that answer a size query,
  whatever their size, and drops the others with one warning each and no
  error; the kept entries stand in the struct in their insertion order,
  the flattened length is the sum of their sizes, and aggregating the
  pruned dictionaries again returns the same struct and changes nothing. *)
Theorem aggregation_order_preserving_idempotent
  le li (de di : list (string * pyvalue)) s :
heap s !! le = Some de → heap s !! li = Some di →
NoDup (keys de) → NoDup (keys di) →
∃ st s',
  make_constraint_struct (Dict le) (Dict li) s = Ok (st, s') ∧
  log s' = log s ++ (warning <$> keys (dropped de)) ++
           (if decide (le = li) then [] else warning <$> keys (dropped di)) ∧
  branch_of "equality" st = sized de ∧
  branch_of "inequality" st = sized di ∧
  (∀ d name shape, (name, shape) ∈ sized d ↔
     ∃ v, (name, v) ∈ d ∧ size v = Ok shape) ∧
  (sized de).*1 `sublist_of` keys de ∧
  (sized di).*1 `sublist_of` keys di ∧
  flat_length st = sum_list_with leaf_size (sized de)
                   + sum_list_with leaf_size (sized di) ∧
  make_constraint_struct (Dict le) (Dict li) s' = Ok (st, s').
Proof.
intros Hle Hli Hde Hdi.
exists (branch_entries "equality" de ++ branch_entries "inequality" di),
       (aggregated le li de di s).
unfold make_constraint_struct.
split; [by apply make_entry_list_Dict|].
split; [done|].
destruct (branch_of_entries de di) as [-> ->]. do 2 (split; [done|]).
split.
{ intros d n shape. unfold sized. rewrite list_elem_of_omap. split.
  - intros [[k v] [Hin Hsz]]. cbn in Hsz. destruct (size v) eqn:Hv; [|done].
    injection Hsz as -> ->. by exists v.
  - intros [v [Hin Hv]]. exists (n, v). split; [done|]. cbn. by rewrite Hv. }
split; [rewrite keys_sized; apply fmap_sublist, sublist_filter|].
split; [rewrite keys_sized; apply fmap_sublist, sublist_filter|].
split.
{ unfold flat_length. by rewrite leaves_entries, sum_list_with_app. }
assert (heap (aggregated le li de di s) !! le = Some (survivors de)) as H1.
{ cbn. destruct (decide (le = li)) as [<-|Hne].
  - rewrite lookup_insert_eq. congruence.
  - rewrite lookup_insert_ne by done. apply lookup_insert_eq. }
assert (heap (aggregated le li de di s) !! li = Some (survivors di)) as H2.
{ cbn. apply lookup_insert_eq. }
rewrite (make_entry_list_Dict le li (survivors de) (survivors di));
  [|done|done|by apply NoDup_keys_survivors..].
by rewrite !branch_entries_survivors, aggregated_fixpoint.
Qed.

Lemma aggregation_order_preserving_idempotent_witness : ∃ st s',
  make_constraint_struct (Dict 0) (Dict 1) example_entries = Ok (st, s') ∧
  branch_of "inequality" st = [("F", (1, 1))%nat].
Proof.
destruct (aggregation_order_preserving_idempotent 0 1
  example_eqs example_ineqs example_entries)
  as (st & s' & H1 & _ & _ & H2 & _).
- reflexivity.
- reflexivity.
- by_decide.
- by_decide.
- exists st, s'. split; [exact H1|exact H2].
Defined.
(** C1 as stated fails: a zero-size casadi matrix answers its size query and
  stays in the struct. *)
Lemma zero_size_entries_kept :
¬ zero_size_entries_dropped (Dict 0) (Dict 1) example_entries.
Proof.
intros H.
assert (NoDup (keys example_eqs)) as Hde by by_decide.
assert (NoDup (keys example_ineqs)) as Hdi by by_decide.
pose proof (make_entry_list_Dict 0 1 example_eqs example_ineqs
              example_entries eq_refl eq_refl Hde Hdi) as E.
apply (H _ _ E ("A", (0, 1))); [|reflexivity].
rewrite leaves_entries. vm_compute. left.
Qed.

(** C10. [clear_empty_keys] returns the dictionary object it was given and
  updates it in place; [make_entry_list] leaves both of the caller's
  dictionaries pruned and every other object alone; an entry stays exactly
  when its value answers a size query, a matrix of size zero included. *)
Theorem pruning_in_place le li (de di : list (string * pyvalue)) s :
heap s !! le = Some de → heap s !! li = Some di →
NoDup (keys de) → NoDup (keys di) →
(∃ s', clear_empty_keys (Dict le) s = Ok (Dict le, s') ∧
       heap s' = <[le := survivors de]> (heap s)) ∧
(∃ st s', make_entry_list (Dict le) (Dict li) s = Ok (st, s') ∧
          heap s' !! le = Some (survivors de) ∧
          heap s' !! li = Some (survivors di) ∧
          ∀ l, l ≠ le → l ≠ li → heap s' !! l = heap s !! l) ∧
(∀ d name v, (name, v) ∈ survivors d ↔
   (name, v) ∈ d ∧ ∃ shape, size v = Ok shape) ∧
(∀ d name cols, (name, Casadi 0 cols) ∈ d →
   (name, Casadi 0 cols) ∈ survivors d).
Proof.
intros Hle Hli Hde Hdi. split; [|split; [|split]].
- exists (pruned le de s). split; [by apply clear_empty_keys_Dict|done].
- exists (branch_entries "equality" de ++ branch_entries "inequality" di),
         (aggregated le li de di s).
  split; [by apply make_entry_list_Dict|]. cbn. split; [|split].
  + destruct (decide (le = li)) as [<-|Hne].
    * rewrite lookup_insert_eq. congruence.
    * rewrite lookup_insert_ne by done. apply lookup_insert_eq.
  + apply lookup_insert_eq.
  + intros l H1 H2. by rewrite !lookup_insert_ne.
- intros d n v. unfold survivors, has_size. rewrite list_elem_of_filter. cbn.
  split.
  + intros [Hv Hin]. split; [done|]. destruct (size v); [by eexists|done].
  + intros [Hin [shape Hv]]. split; [by rewrite Hv|done].
- intros d n cols Hin. unfold survivors. apply list_elem_of_filter. by split.
Qed.

Lemma pruning_in_place_witness :
∃ s', clear_empty_keys (Dict 1) example_entries = Ok (Dict 1, s') ∧
      heap s' = <[1 := [("F", Casadi 1 1)]]> (heap example_entries).
Proof.
apply (pruning_in_place 1 0 example_ineqs example_eqs example_entries).
- reflexivity.
- reflexivity.
- by_decide.
- by_decide.
Defined.

End AggregatorTheorems.

(** ** Mode classifier *)

Section ClassifierTheorems.
Set Default Proof Using "Type".
Import Classifier.
Context {R : Type}.
Implicit Type o : options R.

Lemma py_in_false x l : x ∉ l → py_in x l = false.
Proof.
  unfold py_in. induction l as [|y l IH]; [done|].
  intros Hx. apply not_elem_of_cons in Hx as [Hne Hx]. cbn.
  rewrite IH by done. by apply String.eqb_neq in Hne as ->.
Qed.

(** C7. With trajectory type launch the classifier enables the plain
    initial conditions and the parameterized terminal conditions, and
    nothing else. *)
Theorem launch_conditions o :
  trajectory_type o = "launch" →
  get_operation_conditions o =
    {| periodic := false;
       initial_conditions := true;
       param_initial_conditions := false;
       param_terminal_conditions := true;
       terminal_inequalities := false;
       integral_constraints := false;
       terminal_conditions := false |}.
Proof.
  intros Htype. unfold get_operation_conditions, determine_if_periodic,
    determine_if_initial_conditions, determine_if_param_initial_conditions,
    determine_if_param_terminal_conditions, determine_if_terminal_inequalities,
    determine_if_integral_constraints, determine_if_terminal_conditions.
  by rewrite Htype.
Qed.

(** C8. A trajectory type outside the six known ones switches every flag
    off; the classifier is a total function, so nothing is raised. *)
Theorem unmatched_type_conditions o :
  trajectory_type o ∉ ["launch"; "nominal_landing"; "compromised_landing";
                       "transition"; "mpc"; "power_cycle"] →
  get_operation_conditions o =
    {| periodic := false;
       initial_conditions := false;
       param_initial_conditions := false;
       param_terminal_conditions := false;
       terminal_inequalities := false;
       integral_constraints := false;
       terminal_conditions := false |}.
Proof.
  intros Htype.
  assert (∀ t, t ∈ ["launch"; "nominal_landing"; "compromised_landing";
                    "transition"; "mpc"; "power_cycle"] →
               String.eqb (trajectory_type o) t = false) as Hne.
  { intros t Ht. apply String.eqb_neq. intros Heq. apply Htype. by rewrite Heq. }
  unfold get_operation_conditions, determine_if_periodic,
    determine_if_initial_conditions, determine_if_param_initial_conditions,
    determine_if_param_terminal_conditions, determine_if_terminal_inequalities,
    determine_if_integral_constraints, determine_if_terminal_conditions.
  rewrite !py_in_false.
  - rewrite !Hne by (by_decide). done.
  - intros Hin. apply Htype. revert Hin. generalize (trajectory_type o).
    intros t. rewrite !elem_of_cons. tauto.
  - intros Hin. apply Htype. revert Hin. generalize (trajectory_type o).
    intros t. rewrite !elem_of_cons. tauto.
  - intros Hin. apply Htype. revert Hin. generalize (trajectory_type o).
    intros t. rewrite !elem_of_cons. tauto.
  - intros Hin. apply Htype. revert Hin. generalize (trajectory_type o).
    intros t. rewrite !elem_of_cons. tauto.
Qed.

End ClassifierTheorems.

Lemma launch_conditions_witness :
  Classifier.get_operation_conditions (launch_options) =
    {| Classifier.periodic := false;
       Classifier.initial_conditions := true;
       Classifier.param_initial_conditions := false;
       Classifier.param_terminal_conditions := true;
       Classifier.terminal_inequalities := false;
       Classifier.integral_constraints := false;
       Classifier.terminal_conditions := false |}.
Proof. apply (launch_conditions launch_options). reflexivity. Defined.

Lemma unmatched_type_conditions_witness :
  Classifier.get_operation_conditions (hover_options) =
    {| Classifier.periodic := false;
       Classifier.initial_conditions := false;
       Classifier.param_initial_conditions := false;
       Classifier.param_terminal_conditions := false;
       Classifier.terminal_inequalities := false;
       Classifier.integral_constraints := false;
       Classifier.terminal_conditions := false |}.
Proof. apply (unmatched_type_conditions hover_options). by_decide. Defined.

(** ** Substrings and prefixes *)

Section StringFacts.
Set Default Proof Using "Type".

Lemma prefix_append (p s : string) :
  String.prefix p s = true ↔ ∃ post, s = p +:+ post.
Proof.
  revert s. induction p as [|a p IH]; intros s.
  - split; [intros _; by exists s|]. by destruct s.
  - destruct s as [|b s]; cbn.
    + split; [done|]. by intros [post ?].
    + destruct (ascii_dec a b) as [->|Hne].
      * rewrite IH. split; intros [post Hpost]; exists post.
        -- by rewrite Hpost.
        -- by injection Hpost.
      * split; [done|]. intros [post Hpost]. by injection Hpost.
Qed.

Lemma contains_occurs_in (sub s : string) :
  contains sub s = true ↔ occurs_in sub s.
Proof.
  unfold occurs_in. induction s as [|c s IH].
  - cbn [contains]. rewrite orb_false_r, prefix_append. split.
    + intros [post Hpost]. by exists "", post.
    + intros (pre & post & Hs). destruct pre; [by exists post|done].
  - cbn [contains]. rewrite orb_true_iff, IH, prefix_append. split.
    + intros [[post Hpost]|(pre & post & Hs)].
      * by exists "", post.
      * exists (String c pre), post. cbn. by rewrite Hs.
    + intros (pre & post & Hs). destruct pre as [|a pre].
      * left. by exists post.
      * right. exists pre, post. by injection Hs.
Qed.

End StringFacts.

(** ** Constraint-family builders *)

Section BuilderTheorems.
Set Default Proof Using "Type".
Import Builders BuildersSpec.
Context {R : Type}.
Variable zero : R.
Variables add sub mul div : R → R → R.
Variable pow2 : R → R.
Variable get_label : options R → string.
Variable split_name_and_node_identifier : string → string * string.
Variable get_splines : struct R → xi_dict R → string → string → R → R.
Variable iteration_order : list string → list string.

Lemma block_getitem (v : struct R) key b :
  getitem v key = Ok b → block v key = b.
Proof. unfold block. by intros ->. Qed.

Lemma elementwise_same_length f (a b : list R) :
  length a = length b → elementwise f a b = Ok (zip_with f a b).
Proof. intros H. unfold elementwise. by rewrite decide_True. Qed.

(** *** Terminal position inequality *)

Lemma position_loop_spec (tv : struct R) (m : model R) (o : options R)
    nodes : ∀ acc,
  (∀ node, node ∈ nodes → ∃ parent q,
     parent_map m !! node = Some parent ∧
     getitem tv ("q" +:+ str node +:+ str parent) = Ok q) →
  position_loop zero add sub mul div pow2 nodes tv (parent_map m)
    (nominal_landing_kite_node_radius o) (nominal_landing_main_node_radius o)
    acc
  = Ok (acc ++ (kite_node_term zero add sub mul div pow2 tv m o <$> nodes)).
Proof.
  induction nodes as [|node nodes IH]; intros acc Hnodes; cbn.
  - by rewrite app_nil_r.
  - destruct (Hnodes node) as (parent & q & Hp & Hq); [left|].
    rewrite Hp. cbn. rewrite Hq. cbn.
    rewrite IH by (intros n Hn; apply Hnodes; by right).
    rewrite <- app_assoc. cbn. do 3 f_equal.
    unfold kite_node_term, radius_term, norm2, parent_of. rewrite Hp. cbn.
    by rewrite (block_getitem _ _ _ Hq).
Qed.

(** C5. The terminal position inequality has one entry for the main node
    followed by one entry per kite node, in the order of [kite_nodes]:
    [(‖q10‖² − R_main²)/R_main²] and then
    [(‖q{node}{parent}‖² − R_kite²)/R_main²]. *)
Theorem terminal_position_inequality_entries
    (tv : struct R) (m : model R) (o : options R) :
  (∃ q10, getitem tv "q10" = Ok q10) →
  (∀ node, node ∈ kite_nodes m → ∃ parent q,
     parent_map m !! node = Some parent ∧
     getitem tv ("q" +:+ str node +:+ str parent) = Ok q) →
  ∃ out,
    make_terminal_position_inequality zero add sub mul div pow2 tv m o = Ok out ∧
    out = main_node_term zero add sub mul div pow2 tv o
          :: (kite_node_term zero add sub mul div pow2 tv m o <$> kite_nodes m) ∧
    length out = 1 + length (kite_nodes m).
Proof.
  intros [q10 Hq10] Hnodes. eexists. split; [|split; [reflexivity|]].
  - unfold make_terminal_position_inequality. rewrite Hq10. cbn.
    rewrite (position_loop_spec tv m o) by done. cbn. do 2 f_equal.
    unfold main_node_term, radius_term, norm2.
    by rewrite (block_getitem _ _ _ Hq10).
  - cbn. by rewrite length_fmap.
Qed.

(** *** Periodicity *)

Lemma getitem_schema_of (v : struct R) key :
  getitem (schema_of v) key = length <$> getitem v key.
Proof.
  unfold schema_of. induction v as [|[k b] v IH]; [done|].
  cbn. by destruct (String.eqb k key).
Qed.

Lemma same_schema_getitem (a b : struct R) key x :
  schema_of a = schema_of b → getitem a key = Ok x →
  ∃ y, getitem b key = Ok y ∧ length x = length y.
Proof.
  intros Hs Hx. pose proof (getitem_schema_of b key) as Hb.
  rewrite <- Hs, getitem_schema_of, Hx in Hb. cbn in Hb.
  destruct (getitem b key) as [y|]; [|done]. injection Hb as Hb. by exists y.
Qed.

Lemma first_char_test (name : string) (c : ascii) :
  name ≠ "" →
  (x ← first_char name; Ok (String.eqb x (String c EmptyString)))
  = Ok (String.prefix (String c EmptyString) name).
Proof.
  destruct name as [|a rest]; [done|]. intros _. cbn.
  destruct (Ascii.eqb_spec a c) as [->|Hne].
  - destruct (ascii_dec c c); [|done]. by destruct rest.
  - destruct (ascii_dec c a); [congruence|done].
Qed.

Lemma first_two_test (name : string) (c1 c2 : ascii) :
  String.eqb (first_two name) (String c1 (String c2 EmptyString))
  = String.prefix (String c1 (String c2 EmptyString)) name.
Proof.
  destruct name as [|a [|b rest]]; cbn.
  - done.
  - destruct (Ascii.eqb_spec a c1), (ascii_dec c1 a); done || congruence.
  - destruct (Ascii.eqb_spec a c1), (ascii_dec c1 a); try done; try congruence.
    destruct (Ascii.eqb_spec b c2), (ascii_dec c2 b); try done; try congruence.
    by destruct rest.
Qed.

Lemma periodicity_test_spec (o : options R) (name : string) :
  name ≠ "" →
  periodicity_test get_label name o
  = Ok (negb (periodicity_skipped get_label o name)).
Proof.
  intros Hne. unfold periodicity_test, periodicity_skipped.
  pose proof (first_char_test name "e" Hne) as He.
  pose proof (first_char_test name "w" Hne) as Hw.
  rewrite <- (first_two_test name "d" "w").
  destruct (first_char name) as [x|]; [|done]. cbn in *.
  injection He as <-. injection Hw as <-.
  destruct (String.eqb x "e"); [done|]. cbn.
  by rewrite !negb_orb.
Qed.

Lemma periodicity_loop_spec (init term : struct R) (o : options R) names :
  ∀ acc,
  (∀ name, name ∈ names →
     name ≠ "" ∧ ∃ a b, getitem init name = Ok a ∧ getitem term name = Ok b ∧
                        length a = length b) →
  periodicity_loop sub get_label names init term o acc
  = Ok (acc ++ concat (difference sub init term <$>
          filter (fun name => periodicity_skipped get_label o name = false)
                 names)).
Proof.
  induction names as [|name names IH]; intros acc Hnames.
  - cbn. by rewrite app_nil_r.
  - destruct (Hnames name) as (Hne & a & b & Ha & Hb & Hlen); [left|].
    cbn [periodicity_loop]. rewrite periodicity_test_spec by done.
    cbn [mbind result_bind]. rewrite filter_cons.
    destruct (periodicity_skipped get_label o name) eqn:Hskip; cbn [negb].
    + cbn [mbind result_bind]. rewrite decide_False by done.
      apply IH. intros n Hn. apply Hnames. by right.
    + rewrite Ha, Hb. cbn [fmap result_fmap mbind result_bind].
      unfold columnize. rewrite elementwise_same_length by done.
      cbn [mbind result_bind]. rewrite decide_True by done.
      rewrite IH by (intros n Hn; apply Hnames; by right).
      rewrite fmap_cons, concat_cons, app_assoc. do 3 f_equal.
      unfold difference. by rewrite (block_getitem _ _ _ Ha), (block_getitem _ _ _ Hb).
Qed.

Lemma comparison_model_occurs (name : string) (o : options R) :
  is_induction_variable_from_comparison_model get_label name o = true ↔
  (∃ label, label ∈ ["qaxi"; "qasym"; "uaxi"; "uasym"] ∧ occurs_in label name) ∧
  ¬ occurs_in (get_label o) name.
Proof.
  unfold is_induction_variable_from_comparison_model.
  rewrite <- contains_occurs_in.
  destruct (contains (get_label o) name); cbn [negb].
  - rewrite andb_false_r. split; [done|]. by intros [_ []].
  - rewrite andb_true_r. split.
    + intros H. split; [|done].
      destruct (existsb _ _) eqn:Hex; [|done].
      apply existsb_exists in Hex as (label & Hin & Hc).
      exists label. split; [by apply list_elem_of_In|].
      by apply contains_occurs_in.
    + intros [(label & Hin & Hocc) _].
      destruct (existsb _ _) eqn:Hex; [done|]. exfalso.
      assert (existsb (fun l => contains l name)
                ["qaxi"; "qasym"; "uaxi"; "uasym"] = true) as Htrue.
      { apply existsb_exists. exists label.
        split; [by apply list_elem_of_In|by apply contains_occurs_in]. }
      congruence.
Qed.

Lemma periodicity_skipped_excluded (o : options R) (name : string) :
  periodicity_skipped get_label o name = true ↔
  periodicity_excluded get_label o name.
Proof.
  unfold periodicity_skipped, periodicity_excluded, starts_with.
  rewrite !orb_true_iff, !prefix_append, comparison_model_occurs. split.
  - intros [[[H|H]|H]|H];
      [left|right; left|right; right; left|right; right; right]; exact H.
  - intros [H|[H|[H|H]]];
      [left; left; left|left; left; right|left; right|right]; exact H.
Qed.

(** C4. The periodicity equality skips exactly the keys that start with e,
    w or dw or in which a label of an induction model occurs while the
    label of the enforced model does not; for the other keys, in the order
    of the schema, it stacks initial minus final value, so its length is
    the sum of their block sizes. *)
Theorem periodicity_equality_blocks (init term : struct R) (o : options R) :
  schema_of init = schema_of term →
  (∀ name, name ∈ keys init → name ≠ "") →
  let surviving :=
    filter (fun name => periodicity_skipped get_label o name = false)
           (keys init) in
  (∀ name, periodicity_skipped get_label o name = true ↔
           periodicity_excluded get_label o name) ∧
  (∀ name, name ∈ surviving ↔
           name ∈ keys init ∧ ¬ periodicity_excluded get_label o name) ∧
  ∃ out,
    make_periodicity_equality sub get_label init term o = Ok out ∧
    out = concat (difference sub init term <$> surviving) ∧
    length out = sum_list_with (fun name => length (block init name)) surviving.
Proof.
  intros Hschema Hne surviving.
  split; [apply periodicity_skipped_excluded|].
  split.
  { intros name. unfold surviving. rewrite list_elem_of_filter.
    rewrite <- periodicity_skipped_excluded.
    destruct (periodicity_skipped get_label o name); split; intros [? ?];
      done || (split; done). }
  assert (∀ name, name ∈ keys init →
    name ≠ "" ∧ ∃ a b, getitem init name = Ok a ∧ getitem term name = Ok b ∧
                       length a = length b) as Hready.
  { intros name Hin. split; [by apply Hne|].
    destruct (getitem_key_elem_of init name Hin) as [a Ha].
    destruct (same_schema_getitem init term name a Hschema Ha) as (b & Hb & Hlen).
    by exists a, b. }
  eexists. split; [|split; [reflexivity|]].
  - unfold make_periodicity_equality, subkeys.
    by rewrite (periodicity_loop_spec init term o) by done.
  - assert (∀ name, name ∈ surviving → name ∈ keys init) as Hsub.
    { intros name Hin. unfold surviving in Hin.
      by apply list_elem_of_filter in Hin as [_ ?]. }
    induction surviving as [|name rest IH]; [done|].
    rewrite fmap_cons, concat_cons, length_app. cbn [sum_list_with].
    rewrite IH by (intros n Hn; apply Hsub; by right). f_equal.
    destruct (Hready name) as (_ & a & b & Ha & Hb & Hlen); [apply Hsub; left|].
    unfold difference. rewrite length_zip_with.
    rewrite (block_getitem _ _ _ Ha), (block_getitem _ _ _ Hb). lia.
Qed.

(** *** Terminal point *)

Lemma select_shift (x : R) (v : list R) (l : list nat) :
  select (S <$> l) (x :: v) = select l v.
Proof.
  unfold select. induction l as [|i l IH]; [done|].
  rewrite fmap_cons. cbn. by rewrite IH.
Qed.

Lemma select_all (v : list R) : select (seq 0 (length v)) v = v.
Proof.
  induction v as [|x v IH]; [done|].
  cbn [length seq]. rewrite <- fmap_S_seq.
  unfold select at 1. cbn [omap list_omap lookup list_lookup].
  fold (select (S <$> seq 0 (length v)) (x :: v)).
  by rewrite select_shift, IH.
Qed.

Lemma py_in_q_dq (state_name : string) :
  py_in state_name ["q"; "dq"]
  = bool_decide (state_name = "q" ∨ state_name = "dq").
Proof.
  unfold py_in. cbn.
  destruct (String.eqb_spec state_name "q") as [->|H1]; cbn;
    [by rewrite bool_decide_eq_true_2 by (by left)|].
  destruct (String.eqb_spec state_name "dq") as [->|H2]; cbn;
    [by rewrite bool_decide_eq_true_2 by (by right)|].
  rewrite bool_decide_eq_false_2; [done|]. by intros [?|?].
Qed.

Lemma terminal_point_blocks_spec (tv rv : struct R) (state : string) :
  terminal_point_ready split_name_and_node_identifier tv rv state →
  terminal_point_blocks sub split_name_and_node_identifier tv rv state
  = Ok (select (constrained_components
                  (split_name_and_node_identifier state).1
                  (length (block tv state)))
               (difference sub tv rv state)).
Proof.
  intros (t & r & Ht & Hr & Hlen & Hidx).
  unfold terminal_point_blocks, difference.
  rewrite (block_getitem _ _ _ Ht), (block_getitem _ _ _ Hr).
  destruct (split_name_and_node_identifier state) as [state_name node].
  cbn [fst] in *. rewrite py_in_q_dq. unfold constrained_components in *.
  rewrite Ht, Hr. cbn [mbind result_bind].
  destruct (decide (state_name = "q" ∨ state_name = "dq")) as [Hq|Hq].
  - rewrite bool_decide_eq_true_2 in Hidx by done.
    rewrite bool_decide_eq_true_2 by done.
    assert (1 < length t) as H1 by (apply Hidx; repeat constructor).
    destruct t as [|t0 [|t1 t]]; cbn in H1; try lia.
    destruct r as [|r0 [|r1 r]]; cbn in Hlen; try lia.
    unfold slice2. rewrite !decide_True by (cbn; lia). done.
  - rewrite bool_decide_eq_false_2 in Hidx by done.
    rewrite bool_decide_eq_false_2 by done.
    destruct (String.eqb_spec state_name "r") as [->|Hr'].
    + rewrite bool_decide_eq_true_2 in Hidx by done.
      rewrite bool_decide_eq_true_2 by done.
      assert (3 < length t) as H3 by (apply Hidx; repeat constructor).
      destruct t as [|t0 [|t1 [|t2 [|t3 t]]]]; cbn in H3; try lia.
      destruct r as [|r0 [|r1 [|r2 [|r3 r]]]]; cbn in Hlen; try lia.
      unfold slice2. rewrite !decide_True by (cbn; lia). done.
    + rewrite bool_decide_eq_false_2 by done.
      rewrite elementwise_same_length by done.
      replace (length t) with (length (zip_with sub t r))
        by (rewrite length_zip_with; lia).
      by rewrite select_all.
Qed.

Lemma mapM_ext_Ok {A B} (f : A → result B) (g : A → B) (l : list A) :
  (∀ x, x ∈ l → f x = Ok (g x)) → mapM f l = Ok (g <$> l).
Proof.
  induction l as [|x l IH]; intros Hf; [done|].
  cbn. rewrite Hf by left. cbn.
  rewrite IH by (intros y Hy; apply Hf; by right). done.
Qed.

(** C6. The terminal point constraint stacks, over the keys of the schema
    in order, components 0 and 1 of actual minus reference for q and dq
    states, components 0, 1 and 3 for r states, and the whole difference
    for every other state. *)
Theorem terminal_point_components (tv rv : struct R) (m : model R) :
  (∀ state, state ∈ keys (variables_dict_x m) →
     terminal_point_ready split_name_and_node_identifier tv rv state) →
  ∃ out,
    make_terminal_point_constraint sub split_name_and_node_identifier tv rv m
      = Ok out ∧
    out = concat ((fun state =>
                     select (constrained_components
                               (split_name_and_node_identifier state).1
                               (length (block tv state)))
                            (difference sub tv rv state))
                  <$> keys (variables_dict_x m)).
Proof.
  intros Hready. eexists. split; [|reflexivity].
  unfold make_terminal_point_constraint.
  erewrite mapM_ext_Ok; [done|].
  intros state Hstate. by apply terminal_point_blocks_spec, Hready.
Qed.

(** *** Parameterized and plain state match *)

Lemma remove_dups_NoDup (l : list string) : NoDup l → remove_dups l = l.
Proof.
  induction l as [|x l IH]; [done|]. intros [Hx Hl]%NoDup_cons. cbn.
  rewrite IH by done. by destruct (decide_rel _ x l).
Qed.

Lemma keys_schema_of (v : struct R) : keys (schema_of v) = keys v.
Proof.
  unfold keys, schema_of. rewrite <- list_fmap_compose.
  by apply list_fmap_ext.
Qed.

Lemma length_canonical_indices (x_struct : list (string * nat)) :
  length (canonical_indices x_struct) = total_size x_struct.
Proof.
  unfold canonical_indices, total_size.
  induction x_struct as [|[k n] xs IH]; [done|].
  cbn. by rewrite length_app, length_fmap, length_seq, IH.
Qed.

Lemma schema_of_cut (x_struct : list (string * nat)) : ∀ v : list R,
  total_size x_struct ≤ length v → schema_of (cut x_struct v) = x_struct.
Proof.
  unfold total_size, schema_of.
  induction x_struct as [|[k n] xs IH]; intros v Hv; [done|].
  cbn in *. rewrite length_take, IH by (rewrite length_drop; lia).
  do 2 f_equal. lia.
Qed.

Lemma wrap_spline_list (splines : string → R → R) (xi : R)
    (x_struct : list (string * nat)) :
  ∃ var_ref, wrap x_struct (spline_list splines xi x_struct) = Ok var_ref ∧
             schema_of var_ref = x_struct.
Proof.
  assert (length (spline_list splines xi x_struct) = total_size x_struct) as Hlen.
  { unfold spline_list. by rewrite length_fmap, length_canonical_indices. }
  eexists. unfold wrap. rewrite decide_True by done.
  split; [done|]. apply schema_of_cut. lia.
Qed.

Lemma conforming_getitem (v : struct R) (x_struct : list (string * nat)) key :
  schema_of v = x_struct → key ∈ keys x_struct →
  ∃ b, getitem v key = Ok b ∧ length b = declared_size x_struct key.
Proof.
  intros <- Hkey. rewrite keys_schema_of in Hkey.
  destruct (getitem_key_elem_of v key Hkey) as [b Hb]. exists b.
  split; [done|]. unfold declared_size. by rewrite getitem_schema_of, Hb.
Qed.

Lemma param_eq_list_spec (states var_ref : struct R) (m : model R)
    (variables : list string) :
  schema_of states = variables_dict_x m →
  schema_of var_ref = variables_dict_x m →
  schema_of (scaling_x m) = variables_dict_x m →
  (∀ key, key ∈ variables → key ∈ keys (variables_dict_x m)) →
  ∃ eq_list,
    param_eq_list sub div states var_ref m variables = Ok eq_list ∧
    schema_of eq_list
    = (fun key => (key, declared_size (variables_dict_x m) key)) <$> variables.
Proof.
  intros Hs Hr Hsc. unfold param_eq_list.
  induction variables as [|key variables IH]; intros Hkeys; [by exists []|].
  destruct IH as (eq_list & IH & Hschema); [intros k Hk; apply Hkeys; by right|].
  assert (key ∈ keys (variables_dict_x m)) as Hkey by (apply Hkeys; left).
  destruct (conforming_getitem _ _ key Hs Hkey) as (a & Ha & Hla).
  destruct (conforming_getitem _ _ key Hr Hkey) as (r & Hr' & Hlr).
  destruct (conforming_getitem _ _ key Hsc Hkey) as (c & Hc & Hlc).
  cbn. rewrite Ha, Hr', Hc. cbn.
  rewrite elementwise_same_length by lia. cbn.
  rewrite elementwise_same_length by (rewrite length_zip_with; lia). cbn.
  rewrite IH. cbn.
  eexists. split; [done|]. unfold schema_of in *.
  rewrite !fmap_cons. cbn [fst snd]. rewrite Hschema. do 2 f_equal.
  rewrite !length_zip_with. lia.
Qed.

Lemma plain_eq_list_spec (states ref : struct R) (m : model R)
    (variables : list string) :
  schema_of states = variables_dict_x m →
  schema_of ref = variables_dict_x m →
  (∀ key, key ∈ variables → key ∈ keys (variables_dict_x m)) →
  ∃ eq_list,
    mapM (fun variable =>
            actual ← getitem states variable;
            reference ← getitem ref variable;
            block ← elementwise sub actual reference;
            Ok (variable, block)) variables = Ok eq_list ∧
    schema_of eq_list
    = (fun key => (key, declared_size (variables_dict_x m) key)) <$> variables.
Proof.
  intros Hs Hr.
  induction variables as [|key variables IH]; intros Hkeys; [by exists []|].
  destruct IH as (eq_list & IH & Hschema); [intros k Hk; apply Hkeys; by right|].
  assert (key ∈ keys (variables_dict_x m)) as Hkey by (apply Hkeys; left).
  destruct (conforming_getitem _ _ key Hs Hkey) as (a & Ha & Hla).
  destruct (conforming_getitem _ _ key Hr Hkey) as (r & Hr' & Hlr).
  cbn. rewrite Ha, Hr'. cbn.
  rewrite elementwise_same_length by lia. cbn. rewrite IH. cbn.
  eexists. split; [done|]. unfold schema_of in *.
  rewrite !fmap_cons. cbn [fst snd]. rewrite Hschema. do 2 f_equal.
  rewrite !length_zip_with. lia.
Qed.

Lemma schema_of_keys (eq_list : list (string * list R))
    (x_struct : list (string * nat)) (variables : list string) :
  schema_of eq_list = (fun key => (key, declared_size x_struct key)) <$> variables →
  eq_list.*1 = variables ∧
  length (concat (eq_list.*2)) = sum_list_with (declared_size x_struct) variables.
Proof.
  revert variables. unfold schema_of.
  induction eq_list as [|[k b] eq_list IH]; intros [|key variables] H;
    try done.
  rewrite !fmap_cons in H. injection H as -> Hb H.
  destruct (IH _ H) as [Hkeys Hlen].
  rewrite !fmap_cons, concat_cons, length_app. cbn [fst snd sum_list_with].
  by rewrite Hkeys, Hlen, Hb.
Qed.

Lemma variable_list_elem_of (m : model R) black_list key :
  iteration_order
    (list_difference (remove_dups (keys (variables_dict_x m))) black_list)
    ≡ₚ list_difference (remove_dups (keys (variables_dict_x m))) black_list →
  key ∈ variable_list iteration_order (variables_dict_x m) black_list ↔
  key ∈ keys (variables_dict_x m) ∧ key ∉ black_list.
Proof.
  intros Hperm. unfold variable_list. rewrite Hperm.
  by rewrite list_elem_of_difference, elem_of_remove_dups.
Qed.

(** What both parameterized builders do once the black list is known. *)
Lemma param_builder_spec (states var_ref : struct R) (m : model R) black_list :
  param_ready iteration_order states m black_list →
  schema_of var_ref = variables_dict_x m →
  ∃ eq_list,
    param_eq_list sub div states var_ref m
      (variable_list iteration_order (variables_dict_x m) black_list)
      = Ok eq_list ∧
    eq_list.*1 = variable_list iteration_order (variables_dict_x m) black_list ∧
    eq_list.*1 ≡ₚ list_difference (keys (variables_dict_x m)) black_list ∧
    constrains_all_but black_list m eq_list ∧
    length (concat (eq_list.*2))
    = sum_list_with (declared_size (variables_dict_x m))
        (list_difference (keys (variables_dict_x m)) black_list).
Proof.
  intros (Hnd & Hs & Hsc & Hperm) Hr.
  destruct (param_eq_list_spec states var_ref m
              (variable_list iteration_order (variables_dict_x m) black_list))
    as (eq_list & Heq & Hschema); try done.
  { intros key Hkey. by apply variable_list_elem_of in Hkey as [? _]. }
  apply schema_of_keys in Hschema as [Hkeys Hlen].
  exists eq_list. split; [done|]. split; [done|].
  assert (eq_list.*1 ≡ₚ list_difference (keys (variables_dict_x m)) black_list)
    as Hp.
  { rewrite Hkeys. unfold variable_list. rewrite Hperm.
    by rewrite remove_dups_NoDup. }
  split; [done|]. split.
  - unfold constrains_all_but. intros key. rewrite Hp.
    apply list_elem_of_difference.
  - rewrite Hlen. unfold variable_list. rewrite Hperm.
    by rewrite remove_dups_NoDup.
Qed.

Lemma param_initial_eq_list_spec (init ref : struct R) (xi : xi_dict R)
    (m : model R) (o : options R) black_list :
  initial_black_list m o = Ok black_list →
  param_ready iteration_order init m black_list →
  ∃ eq_list,
    param_initial_conditions_eq_list sub div get_splines iteration_order
      init ref xi m o = Ok eq_list ∧
    make_param_initial_conditions sub div get_splines iteration_order
      init ref xi m o = Ok (concat (eq_list.*2)) ∧
    eq_list.*1 = variable_list iteration_order (variables_dict_x m) black_list ∧
    eq_list.*1 ≡ₚ list_difference (keys (variables_dict_x m)) black_list ∧
    constrains_all_but black_list m eq_list ∧
    length (concat (eq_list.*2))
    = sum_list_with (declared_size (variables_dict_x m))
        (list_difference (keys (variables_dict_x m)) black_list).
Proof.
  intros Hbl Hready.
  destruct (wrap_spline_list (get_splines init xi "initial") (xi_0 xi)
              (variables_dict_x m)) as (var_ref & Hwrap & Hschema).
  destruct (param_builder_spec init var_ref m black_list Hready Hschema)
    as (eq_list & Heq & Hrest).
  exists eq_list.
  assert (param_initial_conditions_eq_list sub div get_splines iteration_order
            init ref xi m o = Ok eq_list) as Hlist.
  { unfold param_initial_conditions_eq_list. rewrite Hwrap, Hbl. done. }
  split; [done|]. split; [|done].
  unfold make_param_initial_conditions. by rewrite Hlist.
Qed.

Lemma param_terminal_eq_list_spec (term ref : struct R) (xi : xi_dict R)
    (m : model R) (o : options R) :
  param_ready iteration_order term m [] →
  ∃ eq_list,
    param_terminal_conditions_eq_list sub div get_splines iteration_order
      term ref xi m o = Ok eq_list ∧
    make_param_terminal_conditions sub div get_splines iteration_order
      term ref xi m o = Ok (concat (eq_list.*2)) ∧
    eq_list.*1 = variable_list iteration_order (variables_dict_x m) [] ∧
    eq_list.*1 ≡ₚ list_difference (keys (variables_dict_x m)) [] ∧
    constrains_all_but [] m eq_list ∧
    length (concat (eq_list.*2))
    = sum_list_with (declared_size (variables_dict_x m))
        (list_difference (keys (variables_dict_x m)) []).
Proof.
  intros Hready.
  destruct (wrap_spline_list (get_splines term xi "terminal") (xi_f xi)
              (variables_dict_x m)) as (var_ref & Hwrap & Hschema).
  destruct (param_builder_spec term var_ref m [] Hready Hschema)
    as (eq_list & Heq & Hrest).
  exists eq_list.
  assert (param_terminal_conditions_eq_list sub div get_splines iteration_order
            term ref xi m o = Ok eq_list) as Hlist.
  { unfold param_terminal_conditions_eq_list. rewrite Hwrap. done. }
  split; [done|]. split; [|done].
  unfold make_param_terminal_conditions. by rewrite Hlist.
Qed.

(** C2 (as amended). The vector of the parameterized initial conditions
    holds one block per key of the schema outside the black list, each key
    once; the blocks follow the order in which the set of variables is
    enumerated, which is a permutation of the order of the schema, and the
    length of the vector is the sum of the declared sizes of these keys. *)
Theorem param_initial_blocks_follow_set_order (init ref : struct R)
    (xi : xi_dict R) (m : model R) (o : options R) black_list :
  initial_black_list m o = Ok black_list →
  param_ready iteration_order init m black_list →
  ∃ eq_list,
    param_initial_conditions_eq_list sub div get_splines iteration_order
      init ref xi m o = Ok eq_list ∧
    make_param_initial_conditions sub div get_splines iteration_order
      init ref xi m o = Ok (concat (eq_list.*2)) ∧
    eq_list.*1 = iteration_order
                   (list_difference (remove_dups (keys (variables_dict_x m)))
                                    black_list) ∧
    eq_list.*1 ≡ₚ list_difference (keys (variables_dict_x m)) black_list ∧
    length (concat (eq_list.*2))
    = sum_list_with (declared_size (variables_dict_x m))
        (list_difference (keys (variables_dict_x m)) black_list).
Proof.
  intros Hbl Hready.
  destruct (param_initial_eq_list_spec init ref xi m o black_list Hbl Hready)
    as (eq_list & H1 & H2 & H3 & H4 & _ & H5).
  by exists eq_list.
Qed.

Lemma structural_damages_black_list (m : model R) (o : options R) parent :
  trajectory_type o = "compromised_landing" →
  (compromised_landing_emergency_scenario o).1 = "structural_damages" →
  parent_map m !! (compromised_landing_emergency_scenario o).2 = Some parent →
  initial_black_list m o = Ok [broken_kite_coefficient m o].
Proof.
  intros Htype Hscenario Hparent.
  unfold initial_black_list, broken_kite_coefficient, parent_of.
  by rewrite Htype, Hscenario, Hparent.
Qed.

(** C3 (as amended). In a compromised landing with structural damages the
    parameterized initial conditions constrain every key of the schema but
    the coefficient state of the broken kite; the parameterized terminal
    conditions have an empty black list and constrain every key. *)
Theorem broken_kite_coefficient_excluded_initially
    (init term ref : struct R) (xi : xi_dict R) (m : model R)
    (o : options R) parent :
  trajectory_type o = "compromised_landing" →
  (compromised_landing_emergency_scenario o).1 = "structural_damages" →
  parent_map m !! (compromised_landing_emergency_scenario o).2 = Some parent →
  param_ready iteration_order init m [broken_kite_coefficient m o] →
  param_ready iteration_order term m [] →
  (∃ eq_list,
     param_initial_conditions_eq_list sub div get_splines iteration_order
       init ref xi m o = Ok eq_list ∧
     make_param_initial_conditions sub div get_splines iteration_order
       init ref xi m o = Ok (concat (eq_list.*2)) ∧
     constrains_all_but [broken_kite_coefficient m o] m eq_list) ∧
  (∃ eq_list,
     param_terminal_conditions_eq_list sub div get_splines iteration_order
       term ref xi m o = Ok eq_list ∧
     make_param_terminal_conditions sub div get_splines iteration_order
       term ref xi m o = Ok (concat (eq_list.*2)) ∧
     constrains_all_but [] m eq_list).
Proof.
  intros Htype Hscenario Hparent Hinit Hterm. split.
  - pose proof (structural_damages_black_list m o parent Htype Hscenario Hparent)
      as Hbl.
    destruct (param_initial_eq_list_spec init ref xi m o _ Hbl Hinit)
      as (eq_list & H1 & H2 & _ & _ & H3 & _).
    by exists eq_list.
  - destruct (param_terminal_eq_list_spec term ref xi m o Hterm)
      as (eq_list & H1 & H2 & _ & _ & H3 & _).
    by exists eq_list.
Qed.

(** *** Assembly of the initial constraints *)

Lemma plain_initial_conditions_spec (init ref : struct R) (xi : xi_dict R)
    (m : model R) (o : options R) :
  schema_of init = variables_dict_x m →
  schema_of ref = variables_dict_x m →
  iteration_order (list_difference (remove_dups (keys (variables_dict_x m))) [])
    ≡ₚ list_difference (remove_dups (keys (variables_dict_x m))) [] →
  ∃ out, make_initial_conditions sub iteration_order init ref xi m o = Ok out.
Proof.
  intros Hs Hr Hperm.
  destruct (plain_eq_list_spec init ref m
              (variable_list iteration_order (variables_dict_x m) []))
    as (eq_list & Heq & _); try done.
  { intros key Hkey. by apply variable_list_elem_of in Hkey as [? _]. }
  unfold make_initial_conditions, initial_conditions_eq_list.
  rewrite Heq. by eexists.
Qed.

(** C9. Whatever the mode, the list of initial constraints holds an
    equality named initial_energy, with expression
    [initial['x','e'] - reference['x','e']], exactly when e is a key of the
    schema; and on state vectors that follow the schema the list is indeed
    returned. *)
Theorem initial_energy_iff_energy_state (o : options R)
    (init ref : struct R) (m : model R) (xi : xi_dict R) :
  (∀ cstr_list,
     get_initial_constraints sub div get_splines iteration_order
       o init ref m xi = Ok cstr_list →
     ((∃ c, c ∈ cstr_list ∧ name c = "initial_energy")
      ↔ "e" ∈ keys (variables_dict_x m)) ∧
     (∀ c, c ∈ cstr_list → name c = "initial_energy" →
        ctype c = eq_cstr ∧
        make_initial_energy_equality sub init ref = Ok (expr c))) ∧
  (schema_of init = variables_dict_x m →
   schema_of ref = variables_dict_x m →
   (∀ black_list, initial_black_list m o = Ok black_list →
                  param_ready iteration_order init m black_list) →
   (∃ black_list, initial_black_list m o = Ok black_list) →
   iteration_order (list_difference (remove_dups (keys (variables_dict_x m))) [])
     ≡ₚ list_difference (remove_dups (keys (variables_dict_x m))) [] →
   ∃ cstr_list,
     get_initial_constraints sub div get_splines iteration_order
       o init ref m xi = Ok cstr_list ∧
     ∀ c, c ∈ cstr_list → name c = "initial_energy" →
          expr c = difference sub init ref "e").
Proof.
  split.
  - intros cstr_list. unfold get_initial_constraints.
    destruct (make_initial_energy_equality sub init ref) as [energy|] eqn:He;
    destruct (make_param_initial_conditions sub div get_splines
                iteration_order init ref xi m o) as [param|];
    destruct (make_initial_conditions sub iteration_order init ref xi m o)
      as [plain|];
    destruct (Classifier.param_initial_conditions
                (Classifier.get_operation_conditions o));
    destruct (Classifier.initial_conditions
                (Classifier.get_operation_conditions o));
    case_bool_decide as Hin; cbn; try done; intros [= <-];
    (split; [split; [intros (c & Hc & Hname)|intros Hin']|intros c Hc Hname]);
    try done;
    repeat match goal with
           | H : _ ∈ [] |- _ => by apply elem_of_nil in H
           | H : _ ∈ _ :: _ |- _ => apply elem_of_cons in H as [->|H]
           end;
    try done;
    try (eexists; split; [apply list_elem_of_here|done]).
  - intros Hs Hr Hready [black_list Hbl] Hperm.
    unfold get_initial_constraints.
    assert (∃ cstr_list,
      (if bool_decide ("e" ∈ keys (variables_dict_x m))
       then init_energy_eq ← make_initial_energy_equality sub init ref;
            Ok ([] ++ [{| expr := init_energy_eq; name := "initial_energy";
                          ctype := eq_cstr |}])
       else Ok []) = Ok cstr_list ∧
      ∀ c, c ∈ cstr_list → name c = "initial_energy" →
           expr c = difference sub init ref "e") as (l1 & -> & Hl1).
    { case_bool_decide as Hin;
        [|exists []; split; [done|]; by intros c ?%elem_of_nil].
      destruct (conforming_getitem _ _ "e" Hs Hin) as (a & Ha & Hla).
      destruct (conforming_getitem _ _ "e" Hr Hin) as (b & Hb & Hlb).
      unfold make_initial_energy_equality. rewrite Ha, Hb. cbn.
      rewrite elementwise_same_length by lia. cbn. eexists. split; [done|].
      intros c Hc _. apply list_elem_of_singleton in Hc as ->. cbn.
      unfold difference.
      by rewrite (block_getitem _ _ _ Ha), (block_getitem _ _ _ Hb). }
    cbn [mbind result_bind].
    destruct (param_initial_eq_list_spec init ref xi m o black_list Hbl
                (Hready _ Hbl)) as (eq_list & _ & -> & _).
    destruct (plain_initial_conditions_spec init ref xi m o Hs Hr Hperm)
      as (plain & ->).
    cbn [mbind result_bind].
    destruct (Classifier.param_initial_conditions _),
             (Classifier.initial_conditions _); cbn;
      eexists; (split; [done|]); intros c Hc Hname;
      repeat (apply elem_of_app in Hc as [Hc|Hc]);
      try (apply list_elem_of_singleton in Hc as ->; done);
      by apply Hl1.
Qed.

End BuilderTheorems.

(** ** The builders on the dual-kite sample *)

Section Samples.
Import Builders BuildersSpec.

Ltac absurd_decide H :=
  apply (bool_decide_pack _) in H; vm_compute in H; destruct H.

Ltac each_element H :=
  repeat (apply elem_of_cons in H as [->|H]); [..|by apply elem_of_nil in H].

Lemma sample_param_ready order black_list :
  (∀ l, order l ≡ₚ l) →
  param_ready order sample_states sample_model black_list.
Proof.
  intros Horder. split; [by_decide|]. split; [reflexivity|].
  split; [reflexivity|]. apply Horder.
Defined.

Lemma reversed_order_Permutation l : reversed_order l ≡ₚ l.
Proof. apply reverse_Permutation. Defined.

Lemma terminal_position_inequality_entries_witness :
  make_terminal_position_inequality 0%Z Z.add Z.sub Z.mul Z.div zsq
    sample_states sample_model landing_options
  = Ok [41; 166; 1804]%Z.
Proof.
  destruct (terminal_position_inequality_entries 0%Z Z.add Z.sub Z.mul Z.div
              zsq sample_states sample_model landing_options)
    as (out & -> & -> & _).
  - eexists. reflexivity.
  - intros node Hnode. each_element Hnode; do 2 eexists; split; reflexivity.
  - reflexivity.
Defined.

Lemma periodicity_equality_blocks_witness :
  make_periodicity_equality Z.sub sample_label wake_states wake_final
    power_cycle_options
  = Ok [2; 3; 11; 5]%Z ∧
  periodicity_excluded sample_label power_cycle_options "uasym1" ∧
  ¬ periodicity_excluded sample_label power_cycle_options "qaxi1".
Proof.
  destruct (periodicity_equality_blocks Z.sub sample_label wake_states
              wake_final power_cycle_options)
    as (Hexcluded & _ & out & -> & -> & _).
  - reflexivity.
  - intros name Hname ->. absurd_decide Hname.
  - split; [reflexivity|]. split.
    + apply Hexcluded. reflexivity.
    + intros H. apply Hexcluded in H. discriminate H.
Defined.

Lemma terminal_point_components_witness :
  make_terminal_point_constraint Z.sub split_trailing_digits sample_states
    sample_reference sample_model
  = Ok [2; 3; 1; 0; 1; 0; 0; 4; 6; 2; 9; 6; 7; 5]%Z.
Proof.
  destruct (terminal_point_components Z.sub split_trailing_digits
              sample_states sample_reference sample_model)
    as (out & -> & ->).
  - intros state Hstate. each_element Hstate;
      (do 2 eexists; split; [reflexivity|]; split; [reflexivity|];
       split; [reflexivity|]; intros i Hi; vm_compute in Hi;
       each_element Hi; cbn; lia).
  - reflexivity.
Defined.

Lemma param_initial_blocks_follow_set_order_witness :
  ∃ eq_list,
    param_initial_conditions_eq_list Z.sub Z.div sample_splines
      reversed_order sample_states sample_reference sample_xi sample_model
      transition_options = Ok eq_list ∧
    eq_list.*1 = ["e"; "coeff21"; "q31"; "q21"; "r10"; "dq10"; "q10"].
Proof.
  destruct (param_initial_blocks_follow_set_order Z.sub Z.div sample_splines
              reversed_order sample_states sample_reference sample_xi
              sample_model transition_options [])
    as (eq_list & H1 & _ & H2 & _).
  - reflexivity.
  - apply sample_param_ready, reversed_order_Permutation.
  - exists eq_list. split; [exact H1|exact H2].
Defined.

(** C2 as stated fails: on the schema [q10, dq10], a set enumerated as
    dq10, q10 puts the block of dq10 first. *)
Lemma blocks_not_in_schema_order :
  (∀ l, reversed_order l ≡ₚ l) ∧
  param_initial_conditions_eq_list Z.sub Z.div sample_splines reversed_order
    point_states point_states sample_xi point_model transition_options
  = Ok [("dq10", [1; 0; 2]); ("q10", [3; 4; 12])]%Z ∧
  ¬ blocks_in_schema_order Z.sub Z.div sample_splines reversed_order
      point_states point_states sample_xi point_model transition_options.
Proof.
  split; [apply reversed_order_Permutation|].
  assert (param_initial_conditions_eq_list Z.sub Z.div sample_splines
            reversed_order point_states point_states sample_xi point_model
            transition_options
          = Ok [("dq10", [1; 0; 2]); ("q10", [3; 4; 12])]%Z) as E
    by reflexivity.
  split; [exact E|]. intros H.
  specialize (H [] _ eq_refl E). by vm_compute in H.
Qed.

Lemma broken_kite_coefficient_excluded_initially_witness :
  (∃ eq_list,
     param_initial_conditions_eq_list Z.sub Z.div sample_splines
       schema_order sample_states sample_reference sample_xi sample_model
       damaged_options = Ok eq_list ∧
     constrains_all_but ["coeff21"] sample_model eq_list) ∧
  (∃ eq_list,
     param_terminal_conditions_eq_list Z.sub Z.div sample_splines
       schema_order sample_states sample_reference sample_xi sample_model
       damaged_options = Ok eq_list ∧
     constrains_all_but [] sample_model eq_list).
Proof.
  destruct (broken_kite_coefficient_excluded_initially Z.sub Z.div
              sample_splines schema_order sample_states sample_states
              sample_reference sample_xi sample_model damaged_options 1)
    as [(l1 & H1 & _ & H2) (l2 & H3 & _ & H4)].
  - reflexivity.
  - reflexivity.
  - reflexivity.
  - by apply sample_param_ready.
  - by apply sample_param_ready.
  - split; [exists l1|exists l2]; split; assumption.
Defined.

(** C3 as stated fails: the terminal builder constrains the coefficient
    state of the broken kite as well. *)
Lemma terminal_builder_keeps_broken_kite_coefficient :
  ¬ both_exclude_broken_kite_coefficient Z.sub Z.div sample_splines
      schema_order sample_states sample_states sample_reference sample_xi
      sample_model damaged_options.
Proof.
  intros [_ H].
  destruct (param_terminal_conditions_eq_list Z.sub Z.div sample_splines
              schema_order sample_states sample_reference sample_xi
              sample_model damaged_options) as [eq_list|] eqn:E;
    [|by vm_compute in E].
  specialize (H eq_list eq_refl "coeff21").
  vm_compute in E. injection E as <-.
  destruct H as [H _]. destruct H as [_ H]; [by_decide|].
  apply H. by_decide.
Qed.

Lemma initial_energy_iff_energy_state_witness :
  ∃ cstr_list,
    get_initial_constraints Z.sub Z.div sample_splines reversed_order
      damaged_options sample_states sample_reference sample_model sample_xi
      = Ok cstr_list ∧
    ∀ c, c ∈ cstr_list → name c = "initial_energy" → expr c = [5%Z].
Proof.
  destruct (initial_energy_iff_energy_state Z.sub Z.div sample_splines
              reversed_order damaged_options sample_states sample_reference
              sample_model sample_xi) as [_ H].
  apply H.
  - reflexivity.
  - reflexivity.
  - intros black_list _. apply sample_param_ready, reversed_order_Permutation.
  - eexists. reflexivity.
  - apply reversed_order_Permutation.
Defined.

End Samples.

(** * Further properties *)

(** ** Which constraint families go together *)

Section FurtherClassifier.
Set Default Proof Using "Type".
Import Classifier.
Context {R : Type}.
Implicit Type o : options R.

Ltac case_trajectory_type o :=
  unfold get_operation_conditions, determine_if_periodic,
    determine_if_initial_conditions, determine_if_param_initial_conditions,
    determine_if_param_terminal_conditions, determine_if_terminal_inequalities,
    determine_if_integral_constraints, determine_if_terminal_conditions, py_in;
  cbn [existsb periodic initial_conditions param_initial_conditions
       param_terminal_conditions terminal_inequalities integral_constraints
       terminal_conditions];
  generalize (trajectory_type o); intros t;
  repeat match goal with
         | |- context [String.eqb t ?s] =>
             destruct (String.eqb_spec t s) as [->|?]
         end;
  cbn.

(** X1. No configuration enables the plain and the parameterized initial
    conditions together, nor two of the three terminal families. *)
Theorem constraint_families_exclusive o :
  let c := get_operation_conditions o in
  initial_conditions c && param_initial_conditions c = false ∧
  param_terminal_conditions c && terminal_inequalities c = false ∧
  param_terminal_conditions c && terminal_conditions c = false ∧
  terminal_inequalities c && terminal_conditions c = false.
Proof. case_trajectory_type o; repeat split; done. Qed.

(** X2. The integral (battery) constraint only comes with the terminal
    inequalities, these only with the parameterized initial conditions,
    and the terminal point only with the plain initial conditions. *)
Theorem constraint_families_dependent o :
  let c := get_operation_conditions o in
  (integral_constraints c = true → terminal_inequalities c = true) ∧
  (terminal_inequalities c = true → param_initial_conditions c = true) ∧
  (terminal_conditions c = true → initial_conditions c = true).
Proof. case_trajectory_type o; repeat split; done. Qed.

End FurtherClassifier.

(** ** What the assemblers return *)

Section FurtherAssemblers.
Set Default Proof Using "Type".
Import Builders BuildersSpec Assemblers FurtherSpec.
Context {R : Type}.
Variable zero : R.
Variables add sub mul div : R → R → R.
Variable pow2 : R → R.
Variable get_label : options R → string.
Variable split_name_and_node_identifier : string → string * string.
Variable get_splines : struct R → xi_dict R → string → string → R → R.
Variable iteration_order : list string → list string.

Lemma flags_by_type (o : options R) :
  let c := Classifier.get_operation_conditions o in
  (Classifier.initial_conditions c = true →
   Classifier.param_initial_conditions c = false) ∧
  (Classifier.param_terminal_conditions c = true →
   Classifier.terminal_inequalities c = false ∧
   Classifier.terminal_conditions c = false) ∧
  (Classifier.terminal_inequalities c = true →
   Classifier.terminal_conditions c = false).
Proof.
  unfold Classifier.get_operation_conditions,
    Classifier.determine_if_initial_conditions,
    Classifier.determine_if_param_initial_conditions,
    Classifier.determine_if_param_terminal_conditions,
    Classifier.determine_if_terminal_inequalities,
    Classifier.determine_if_terminal_conditions, py_in.
  cbn. generalize (trajectory_type o). intros t.
  repeat match goal with
         | |- context [String.eqb t ?s] =>
             destruct (String.eqb_spec t s) as [->|?]
         end; cbn; repeat split; done.
Qed.

(** X3. The initial constraints are all equalities; initial_energy, when
    the schema has an energy state, comes first, followed by at most one
    state match: the parameterized one or the plain one, as the classifier
    says. *)
Theorem initial_constraints_layout (o : options R) (init ref : struct R)
    (m : model R) (xi : xi_dict R) cstr_list :
  get_initial_constraints sub div get_splines iteration_order o init ref m xi
    = Ok cstr_list →
  let c := Classifier.get_operation_conditions o in
  name <$> cstr_list
  = (if bool_decide ("e" ∈ keys (variables_dict_x m))
     then ["initial_energy"] else []) ++
    (if Classifier.param_initial_conditions c
     then ["param_initial_conditions"] else []) ++
    (if Classifier.initial_conditions c then ["initial_conditions"] else []) ∧
  Forall (fun cstr => ctype cstr = eq_cstr) cstr_list ∧
  length cstr_list ≤ 2.
Proof.
  intros Hget c. subst c.
  destruct (flags_by_type o) as (Hex & _). revert Hget Hex.
  unfold get_initial_constraints.
  destruct (make_initial_energy_equality sub init ref) as [energy|];
  destruct (make_param_initial_conditions sub div get_splines
              iteration_order init ref xi m o) as [param|];
  destruct (make_initial_conditions sub iteration_order init ref xi m o)
    as [plain|];
  destruct (Classifier.param_initial_conditions
              (Classifier.get_operation_conditions o));
  destruct (Classifier.initial_conditions
              (Classifier.get_operation_conditions o));
  case_bool_decide; cbn; try done; intros [= <-] Hex;
  try (by specialize (Hex eq_refl));
  (split; [done|split; [repeat constructor|cbn; lia]]).
Qed.

(** X4. At most one terminal constraint is returned: the parameterized
    terminal conditions, else the terminal inequalities (the only
    inequality), else the terminal point equalities; and with the three
    families disabled nothing is read and the list is empty. *)
Theorem terminal_constraints_layout (o : options R) (term ref : struct R)
    (m : model R) (xi : xi_dict R) :
  let c := Classifier.get_operation_conditions o in
  (∀ cstr_list,
     get_terminal_constraints zero add sub mul div pow2
       split_name_and_node_identifier get_splines iteration_order
       o term ref m xi = Ok cstr_list →
     (fun cstr => (name cstr, ctype cstr)) <$> cstr_list
     = if Classifier.param_terminal_conditions c
       then [("param_terminal_conditions", eq_cstr)]
       else if Classifier.terminal_inequalities c
       then [("terminal_inequalities", ineq_cstr)]
       else if Classifier.terminal_conditions c
       then [("terminal_equalities", eq_cstr)]
       else []) ∧
  (Classifier.param_terminal_conditions c = false →
   Classifier.terminal_inequalities c = false →
   Classifier.terminal_conditions c = false →
   get_terminal_constraints zero add sub mul div pow2
     split_name_and_node_identifier get_splines iteration_order
     o term ref m xi = Ok []).
Proof.
  intros c. subst c. destruct (flags_by_type o) as (_ & Hpt & Hti).
  unfold get_terminal_constraints. split.
  - intros cstr_list. revert Hpt Hti.
    destruct (make_param_terminal_conditions sub div get_splines
                iteration_order term ref xi m o) as [param|];
    destruct (make_terminal_position_inequality zero add sub mul div pow2
                term m o) as [ineq|];
    destruct (make_terminal_point_constraint sub
                split_name_and_node_identifier term ref m) as [point|];
    destruct (Classifier.param_terminal_conditions
                (Classifier.get_operation_conditions o));
    destruct (Classifier.terminal_inequalities
                (Classifier.get_operation_conditions o));
    destruct (Classifier.terminal_conditions
                (Classifier.get_operation_conditions o));
    cbn; intros Hpt Hti; try done;
    try (by destruct (Hpt eq_refl)); try (by specialize (Hti eq_refl));
    by intros [= <-].
  - by intros -> -> ->.
Qed.

Lemma terminal_position_inequality_value (tv : struct R) (m : model R)
    (o : options R) :
  positions_present tv m →
  make_terminal_position_inequality zero add sub mul div pow2 tv m o
  = Ok (main_node_term zero add sub mul div pow2 tv o
        :: (kite_node_term zero add sub mul div pow2 tv m o <$> kite_nodes m)).
Proof.
  intros [[q10 Hq10] Hnodes].
  unfold make_terminal_position_inequality. rewrite Hq10. cbn.
  rewrite (position_loop_spec zero add sub mul div pow2 tv m o) by done.
  cbn. do 2 f_equal. unfold main_node_term, radius_term, norm2.
  by rewrite (block_getitem _ _ _ Hq10).
Qed.

(** X5. For a nominal or compromised landing whose position keys exist,
    the terminal constraints are the single inequality
    terminal_inequalities, holding the radius term of the main node and
    then those of the kite nodes. *)
Theorem landing_terminal_constraints (o : options R) (term ref : struct R)
    (m : model R) (xi : xi_dict R) :
  trajectory_type o = "nominal_landing" ∨
  trajectory_type o = "compromised_landing" →
  positions_present term m →
  get_terminal_constraints zero add sub mul div pow2
    split_name_and_node_identifier get_splines iteration_order
    o term ref m xi
  = Ok [{| expr := main_node_term zero add sub mul div pow2 term o
                   :: (kite_node_term zero add sub mul div pow2 term m o
                       <$> kite_nodes m);
           name := "terminal_inequalities";
           ctype := ineq_cstr |}].
Proof.
  intros Htype Hpresent. unfold get_terminal_constraints.
  rewrite terminal_position_inequality_value by done.
  unfold Classifier.get_operation_conditions,
    Classifier.determine_if_param_terminal_conditions,
    Classifier.determine_if_terminal_inequalities,
    Classifier.determine_if_terminal_conditions.
  cbn. by destruct Htype as [-> | ->].
Qed.

End FurtherAssemblers.

(** ** More on the aggregation *)

Section FurtherAggregator.
Set Default Proof Using "Type".
Import Aggregator AggregatorSpec.

Lemma survivors_all (d : list (string * pyvalue)) :
  (∀ kv, kv ∈ d → has_size kv.2 = true) →
  survivors d = d ∧ dropped d = [].
Proof.
  intros Hall. unfold survivors, dropped. split.
  - by apply filter_all.
  - induction d as [|kv d IH]; [done|]. rewrite filter_cons.
    rewrite decide_False by (rewrite Hall; [done|left]).
    apply IH. intros x Hx. apply Hall. by right.
Qed.

(** X6. The struct has at most two branches, equality before inequality,
    and a branch is there exactly when one of its entries survives. *)
Theorem struct_branches le li (de di : list (string * pyvalue)) s :
  heap s !! le = Some de → heap s !! li = Some di →
  NoDup (keys de) → NoDup (keys di) →
  ∃ st s',
    make_constraint_struct (Dict le) (Dict li) s = Ok (st, s') ∧
    entry_name <$> st
    = (if bool_decide (survivors de = []) then [] else ["equality"]) ++
      (if bool_decide (survivors di = []) then [] else ["inequality"]).
Proof.
  intros Hle Hli Hde Hdi. do 2 eexists.
  split; [by apply make_entry_list_Dict|].
  unfold branch_entries. by do 2 case_bool_decide.
Qed.

(** X7. A dictionary whose values all answer the size query is left as it
    is, and nothing is logged. *)
Theorem clear_empty_keys_keeps_sized l (d : list (string * pyvalue)) s :
  heap s !! l = Some d → NoDup (keys d) →
  (∀ kv, kv ∈ d → has_size kv.2 = true) →
  clear_empty_keys (Dict l) s = Ok (Dict l, s).
Proof.
  intros Hl Hnd Hall. rewrite (clear_empty_keys_Dict l d s) by done.
  destruct (survivors_all d Hall) as [Hs Hd].
  unfold pruned. rewrite Hs, Hd, insert_id by done.
  cbn. rewrite app_nil_r. by destruct s.
Qed.

Lemma clear_empty_keys_empty_list s :
  clear_empty_keys (List 0) s = Ok (List 0, s).
Proof. reflexivity. Qed.

Lemma branch_empty_list name s entry_list :
  branch name (List 0) s entry_list = Ok entry_list.
Proof. reflexivity. Qed.

(** X8. With the literal [[]] in place of one dictionary, as
    [generate_integral_constraints] calls it, the struct has the branch of
    the other dictionary only, which is pruned in place; a list that is
    not empty raises. *)
Theorem struct_with_list_side l (d : list (string * pyvalue)) s :
  heap s !! l = Some d → NoDup (keys d) →
  (∃ st s',
     make_constraint_struct (Dict l) (List 0) s = Ok (st, s') ∧
     branch_of "equality" st = sized d ∧ branch_of "inequality" st = [] ∧
     heap s' = <[l := survivors d]> (heap s)) ∧
  (∃ st s',
     make_constraint_struct (List 0) (Dict l) s = Ok (st, s') ∧
     branch_of "equality" st = [] ∧ branch_of "inequality" st = sized d ∧
     heap s' = <[l := survivors d]> (heap s)) ∧
  (∀ len other, make_constraint_struct (List (S len)) other s
                = Raise AttributeError).
Proof.
  intros Hl Hnd.
  assert (heap (pruned l d s) !! l = Some (survivors d)) as Hl'
    by apply lookup_insert_eq.
  assert (survivors d = [] → sized d = []) as Hnil.
  { intros Hd. apply (f_equal keys) in Hd. rewrite <- keys_sized in Hd.
    by apply fmap_nil_inv in Hd. }
  split; [|split].
  - exists (branch_entries "equality" d), (pruned l d s).
    unfold make_constraint_struct, make_entry_list.
    rewrite (clear_empty_keys_Dict l d s) by done. cbn [mbind result_bind].
    rewrite clear_empty_keys_empty_list. cbn [mbind result_bind].
    rewrite (branch_Dict "equality" l d) by done. cbn [mbind result_bind].
    rewrite branch_empty_list. cbn [mbind result_bind app].
    split; [done|]. unfold branch_entries.
    case_bool_decide; cbn; rewrite ?app_nil_r; auto using eq_sym.
  - exists (branch_entries "inequality" d), (pruned l d s).
    unfold make_constraint_struct, make_entry_list.
    rewrite clear_empty_keys_empty_list. cbn [mbind result_bind].
    rewrite (clear_empty_keys_Dict l d s) by done. cbn [mbind result_bind].
    rewrite branch_empty_list. cbn [mbind result_bind].
    rewrite (branch_Dict "inequality" l d) by done.
    cbn [mbind result_bind app].
    split; [done|]. unfold branch_entries.
    case_bool_decide; cbn; rewrite ?app_nil_r; auto using eq_sym.
  - done.
Qed.

End FurtherAggregator.

(** ** More on the builders *)

Section FurtherBuilders.
Set Default Proof Using "Type".
Import Builders BuildersSpec FurtherSpec.
Context {R : Type}.
Variable zero : R.
Variables add sub mul div : R → R → R.
Variable pow2 : R → R.
Variable get_label : options R → string.
Variable split_name_and_node_identifier : string → string * string.
Variable get_splines : struct R → xi_dict R → string → string → R → R.
Variable iteration_order : list string → list string.

(** X9. A key counts as a variable of a comparison model exactly when one
    of the labels qaxi, qasym, uaxi, uasym occurs in it and the label of
    the enforced model does not; a key in which the enforced label occurs
    never does, whatever else occurs in it. *)
Theorem comparison_model_variable (name : string) (o : options R) :
  is_induction_variable_from_comparison_model get_label name o = true ↔
  (∃ label, label ∈ ["qaxi"; "qasym"; "uaxi"; "uasym"] ∧ occurs_in label name) ∧
  ¬ occurs_in (get_label o) name.
Proof. apply comparison_model_occurs. Qed.

(** *** The reference built from the splines *)

Lemma spline_list_cons (splines : string → R → R) (xi : R) key n
    (x_struct : list (string * nat)) :
  spline_list splines xi ((key, n) :: x_struct)
  = spline_block splines xi key n ++ spline_list splines xi x_struct.
Proof.
  unfold spline_list, canonical_indices, spline_block. cbn.
  rewrite fmap_app. f_equal. rewrite <- list_fmap_compose.
  by apply list_fmap_ext.
Qed.

Lemma length_spline_block (splines : string → R → R) (xi : R) key n :
  length (spline_block splines xi key n) = n.
Proof. unfold spline_block. by rewrite length_fmap, length_seq. Qed.

Lemma cut_spline_list (splines : string → R → R) (xi : R)
    (x_struct : list (string * nat)) :
  cut x_struct (spline_list splines xi x_struct)
  = spline_reference splines xi x_struct.
Proof.
  unfold spline_reference.
  induction x_struct as [|[key n] x_struct IH]; [done|].
  rewrite spline_list_cons. cbn [cut].
  rewrite take_app_length' by (by rewrite length_spline_block).
  rewrite drop_app_length' by (by rewrite length_spline_block).
  by rewrite IH.
Qed.

Lemma wrap_spline_reference (splines : string → R → R) (xi : R)
    (x_struct : list (string * nat)) :
  wrap x_struct (spline_list splines xi x_struct)
  = Ok (spline_reference splines xi x_struct).
Proof.
  unfold wrap. rewrite decide_True.
  - by rewrite cut_spline_list.
  - unfold spline_list. by rewrite length_fmap, length_canonical_indices.
Qed.

(** X10. The reference struct built from the flat list of spline values
    gives every key its own splines, [key_0] to [key_(n-1)], evaluated at
    the design parameter; no shape error can arise. *)
Theorem wrap_spline_list_value (splines : string → R → R) (xi : R)
    (x_struct : list (string * nat)) :
  wrap x_struct (spline_list splines xi x_struct)
  = Ok (spline_reference splines xi x_struct).
Proof. apply wrap_spline_reference. Qed.
(** *** The state-match builders *)

Lemma sum_list_with_agree {A} (f g : A → nat) (l : list A) :
  (∀ x, x ∈ l → f x = g x) → sum_list_with f l = sum_list_with g l.
Proof.
  induction l as [|x l IH]; intros Hfg; [done|]. cbn.
  rewrite Hfg by left. rewrite IH; [done|]. intros y Hy. apply Hfg. by right.
Qed.

Lemma declared_size_keys (x_struct : list (string * nat)) :
  NoDup (keys x_struct) →
  sum_list_with (declared_size x_struct) (keys x_struct) = total_size x_struct.
Proof.
  unfold total_size, keys.
  induction x_struct as [|[key n] x_struct IH]; [done|].
  rewrite fmap_cons. intros [Hkey Hnd]%NoDup_cons. cbn [sum_list_with fst snd].
  rewrite <- IH by done. f_equal.
  - unfold declared_size. cbn. by rewrite String.eqb_refl.
  - apply sum_list_with_agree. intros k Hk. unfold declared_size. cbn.
    destruct (String.eqb_spec key k) as [->|]; [|done]. by destruct Hkey.
Qed.

Lemma declared_size_missing (x_struct : list (string * nat)) key :
  key ∉ keys x_struct → declared_size x_struct key = 0.
Proof.
  intros Hkey. unfold declared_size.
  destruct (getitem x_struct key) as [n|] eqn:Hn; [|done].
  apply getitem_Ok_elem_of in Hn. destruct Hkey.
  apply list_elem_of_fmap. by exists (key, n).
Qed.

Lemma sum_without (f : string → nat) (l : list string) key :
  NoDup l →
  sum_list_with f (list_difference l [key])
  + (if decide (key ∈ l) then f key else 0)
  = sum_list_with f l.
Proof.
  induction l as [|x l IH]; [done|]. intros [Hx Hnd]%NoDup_cons.
  specialize (IH Hnd). cbn [list_difference].
  destruct (decide_rel elem_of x [key]) as [Hin|Hnin].
  - apply list_elem_of_singleton in Hin as ->.
    rewrite (decide_True (P := key ∈ key :: l)) by left.
    rewrite (decide_False (P := key ∈ l)) in IH by done.
    cbn [sum_list_with]. lia.
  - assert (x ≠ key) as Hne by (intros ->; apply Hnin; left).
    cbn [sum_list_with].
    destruct (decide (key ∈ l)) as [Hin|Hnin'].
    + rewrite (decide_True (P := key ∈ x :: l)) by (by right). lia.
    + rewrite (decide_False (P := key ∈ x :: l)); [lia|].
      intros [?|?]%elem_of_cons; [congruence|done].
Qed.

Lemma plain_eq_list_value (states ref : struct R) (m : model R)
    (variables : list string) :
  schema_of states = variables_dict_x m →
  schema_of ref = variables_dict_x m →
  (∀ key, key ∈ variables → key ∈ keys (variables_dict_x m)) →
  mapM (fun variable =>
          actual ← getitem states variable;
          reference ← getitem ref variable;
          block ← elementwise sub actual reference;
          Ok (variable, block)) variables
  = Ok ((fun key => (key, difference sub states ref key)) <$> variables).
Proof.
  intros Hs Hr Hkeys. apply mapM_ext_Ok. intros key Hkey.
  destruct (conforming_getitem _ _ key Hs (Hkeys _ Hkey)) as (a & Ha & Hla).
  destruct (conforming_getitem _ _ key Hr (Hkeys _ Hkey)) as (r & Hr' & Hlr).
  rewrite Ha, Hr'. cbn. rewrite elementwise_same_length by lia. cbn.
  unfold difference. by rewrite (block_getitem _ _ _ Ha), (block_getitem _ _ _ Hr').
Qed.

Lemma param_eq_list_value (states var_ref : struct R) (m : model R)
    (variables : list string) :
  schema_of states = variables_dict_x m →
  schema_of var_ref = variables_dict_x m →
  schema_of (scaling_x m) = variables_dict_x m →
  (∀ key, key ∈ variables → key ∈ keys (variables_dict_x m)) →
  param_eq_list sub div states var_ref m variables
  = Ok ((fun key => (key, scaled_difference sub div states var_ref m key))
        <$> variables).
Proof.
  intros Hs Hr Hsc Hkeys. apply mapM_ext_Ok. intros key Hkey.
  destruct (conforming_getitem _ _ key Hs (Hkeys _ Hkey)) as (a & Ha & Hla).
  destruct (conforming_getitem _ _ key Hr (Hkeys _ Hkey)) as (r & Hr' & Hlr).
  destruct (conforming_getitem _ _ key Hsc (Hkeys _ Hkey)) as (c & Hc & Hlc).
  rewrite Ha, Hr', Hc. cbn. rewrite elementwise_same_length by lia. cbn.
  rewrite elementwise_same_length by (rewrite length_zip_with; lia). cbn.
  unfold scaled_difference.
  by rewrite (block_getitem _ _ _ Ha), (block_getitem _ _ _ Hr'),
             (block_getitem _ _ _ Hc).
Qed.

Lemma schema_of_spline_reference (splines : string → R → R) (xi : R)
    (x_struct : list (string * nat)) :
  schema_of (spline_reference splines xi x_struct) = x_struct.
Proof.
  unfold schema_of, spline_reference. rewrite <- list_fmap_compose.
  rewrite <- (list_fmap_id x_struct) at 2. apply list_fmap_ext.
  intros i [key n] _. cbn [compose fst snd]. by rewrite length_spline_block.
Qed.

Lemma length_concat_blocks (f : string → list R) (g : string → nat)
    (l : list string) :
  (∀ key, key ∈ l → length (f key) = g key) →
  length (concat (f <$> l)) = sum_list_with g l.
Proof.
  induction l as [|x l IH]; intros Hfg; [done|].
  rewrite fmap_cons, concat_cons, length_app. cbn [sum_list_with].
  rewrite Hfg by left. rewrite IH; [done|]. intros k Hk. apply Hfg. by right.
Qed.
Lemma length_difference (a b : struct R) (x_struct : list (string * nat)) key :
  schema_of a = x_struct → schema_of b = x_struct → key ∈ keys x_struct →
  length (difference sub a b key) = declared_size x_struct key.
Proof.
  intros Ha Hb Hkey.
  destruct (conforming_getitem _ _ key Ha Hkey) as (x & Hx & Hlx).
  destruct (conforming_getitem _ _ key Hb Hkey) as (y & Hy & Hly).
  unfold difference.
  rewrite (block_getitem _ _ _ Hx), (block_getitem _ _ _ Hy), length_zip_with.
  lia.
Qed.

Lemma length_scaled_difference (states var_ref : struct R) (m : model R) key :
  schema_of states = variables_dict_x m →
  schema_of var_ref = variables_dict_x m →
  schema_of (scaling_x m) = variables_dict_x m →
  key ∈ keys (variables_dict_x m) →
  length (scaled_difference sub div states var_ref m key)
  = declared_size (variables_dict_x m) key.
Proof.
  intros Hs Hr Hsc Hkey.
  destruct (conforming_getitem _ _ key Hs Hkey) as (a & Ha & Hla).
  destruct (conforming_getitem _ _ key Hr Hkey) as (r & Hr' & Hlr).
  destruct (conforming_getitem _ _ key Hsc Hkey) as (c & Hc & Hlc).
  unfold scaled_difference.
  rewrite (block_getitem _ _ _ Ha), (block_getitem _ _ _ Hr'),
          (block_getitem _ _ _ Hc), !length_zip_with.
  lia.
Qed.

(** X11. On vectors that follow the schema, the plain initial conditions
    are [initial[key] - reference[key]] for every key of the schema, one
    block per key in the order the set of keys is enumerated, and have as
    many rows as the state vector. *)
Theorem initial_conditions_value (init ref : struct R) (xi : xi_dict R)
    (m : model R) (o : options R) :
  NoDup (keys (variables_dict_x m)) →
  schema_of init = variables_dict_x m →
  schema_of ref = variables_dict_x m →
  variable_list iteration_order (variables_dict_x m) []
    ≡ₚ keys (variables_dict_x m) →
  ∃ out,
    make_initial_conditions sub iteration_order init ref xi m o = Ok out ∧
    out = concat (difference sub init ref <$>
                  variable_list iteration_order (variables_dict_x m) []) ∧
    length out = total_size (variables_dict_x m).
Proof.
  intros Hnd Hs Hr Hperm.
  assert (∀ key, key ∈ variable_list iteration_order (variables_dict_x m) [] →
                 key ∈ keys (variables_dict_x m)) as Hkeys.
  { intros key. by rewrite Hperm. }
  eexists. split; [|split; [reflexivity|]].
  - unfold make_initial_conditions, initial_conditions_eq_list.
    rewrite (plain_eq_list_value init ref m) by done. cbn [mbind result_bind].
    do 2 f_equal. rewrite <- list_fmap_compose. by apply list_fmap_ext.
  - rewrite (length_concat_blocks _ (declared_size (variables_dict_x m))).
    + by rewrite Hperm, declared_size_keys.
    + intros key Hkey. apply length_difference; auto.
Qed.

(** X12. On vectors that follow the schema, the parameterized terminal
    conditions are [terminal[key] - reference[key] / scaling[key]] for
    every key of the schema without exception, the reference being the
    splines of the key at [xi_f]: the scaling divides the reference, not
    the difference. The vector has as many rows as the state vector. *)
Theorem param_terminal_conditions_value (term ref : struct R)
    (xi : xi_dict R) (m : model R) (o : options R) :
  NoDup (keys (variables_dict_x m)) →
  schema_of term = variables_dict_x m →
  schema_of (scaling_x m) = variables_dict_x m →
  variable_list iteration_order (variables_dict_x m) []
    ≡ₚ keys (variables_dict_x m) →
  ∃ out,
    make_param_terminal_conditions sub div get_splines iteration_order
      term ref xi m o = Ok out ∧
    out = concat (scaled_difference sub div term
                    (spline_reference (get_splines term xi "terminal")
                       (xi_f xi) (variables_dict_x m)) m <$>
                  variable_list iteration_order (variables_dict_x m) []) ∧
    length out = total_size (variables_dict_x m).
Proof.
  intros Hnd Hs Hsc Hperm.
  assert (∀ key, key ∈ variable_list iteration_order (variables_dict_x m) [] →
                 key ∈ keys (variables_dict_x m)) as Hkeys.
  { intros key. by rewrite Hperm. }
  eexists. split; [|split; [reflexivity|]].
  - unfold make_param_terminal_conditions, param_terminal_conditions_eq_list.
    rewrite wrap_spline_reference. cbn [mbind result_bind].
    rewrite param_eq_list_value;
      [|done|apply schema_of_spline_reference|done|done].
    cbn [mbind result_bind].
    do 2 f_equal. rewrite <- list_fmap_compose. by apply list_fmap_ext.
  - rewrite (length_concat_blocks _ (declared_size (variables_dict_x m))).
    + by rewrite Hperm, declared_size_keys.
    + intros key Hkey. apply length_scaled_difference; auto.
      apply schema_of_spline_reference.
Qed.

(** X13. With structural damages the parameterized initial conditions
    are [initial[key] - reference[key] / scaling[key]] for the keys other
    than the coefficient state of the broken kite, the reference being
    the splines at [xi_0], and they fall short of the state vector by
    exactly the declared size of that state (by nothing when the schema
    has no such state). *)
Theorem param_initial_conditions_structural_damages (init ref : struct R)
    (xi : xi_dict R) (m : model R) (o : options R) parent :
  trajectory_type o = "compromised_landing" →
  (compromised_landing_emergency_scenario o).1 = "structural_damages" →
  parent_map m !! (compromised_landing_emergency_scenario o).2 = Some parent →
  NoDup (keys (variables_dict_x m)) →
  schema_of init = variables_dict_x m →
  schema_of (scaling_x m) = variables_dict_x m →
  variable_list iteration_order (variables_dict_x m)
    [broken_kite_coefficient m o]
    ≡ₚ list_difference (keys (variables_dict_x m))
         [broken_kite_coefficient m o] →
  ∃ out,
    make_param_initial_conditions sub div get_splines iteration_order
      init ref xi m o = Ok out ∧
    out = concat (scaled_difference sub div init
                    (spline_reference (get_splines init xi "initial")
                       (xi_0 xi) (variables_dict_x m)) m <$>
                  variable_list iteration_order (variables_dict_x m)
                    [broken_kite_coefficient m o]) ∧
    length out
    + declared_size (variables_dict_x m) (broken_kite_coefficient m o)
    = total_size (variables_dict_x m).
Proof.
  intros Htype Hscenario Hparent Hnd Hs Hsc Hperm.
  assert (∀ key, key ∈ variable_list iteration_order (variables_dict_x m)
                         [broken_kite_coefficient m o] →
                 key ∈ keys (variables_dict_x m)) as Hkeys.
  { intros key. rewrite Hperm. by intros [? _]%list_elem_of_difference. }
  eexists. split; [|split; [reflexivity|]].
  - unfold make_param_initial_conditions, param_initial_conditions_eq_list.
    rewrite wrap_spline_reference. cbn [mbind result_bind].
    rewrite (structural_damages_black_list m o parent) by done.
    cbn [mbind result_bind].
    rewrite param_eq_list_value;
      [|done|apply schema_of_spline_reference|done|done].
    cbn [mbind result_bind].
    do 2 f_equal. rewrite <- list_fmap_compose. by apply list_fmap_ext.
  - rewrite (length_concat_blocks _ (declared_size (variables_dict_x m))).
    + rewrite Hperm.
      rewrite <- (declared_size_keys (variables_dict_x m)) by done.
      rewrite <- (sum_without _ (keys (variables_dict_x m))
                    (broken_kite_coefficient m o)) by done.
      f_equal. case_decide as Hin; [done|].
      by apply declared_size_missing.
    + intros key Hkey. apply length_scaled_difference; auto.
      apply schema_of_spline_reference.
Qed.

(** X14. With structural damages and a broken kite that the architecture
    does not know, the parameterized initial conditions raise a key error
    for the kite, whatever the state vectors are. *)
Theorem param_initial_conditions_unknown_kite (init ref : struct R)
    (xi : xi_dict R) (m : model R) (o : options R) :
  trajectory_type o = "compromised_landing" →
  (compromised_landing_emergency_scenario o).1 = "structural_damages" →
  parent_map m !! (compromised_landing_emergency_scenario o).2 = None →
  make_param_initial_conditions sub div get_splines iteration_order
    init ref xi m o
  = Raise (KeyError (str (compromised_landing_emergency_scenario o).2)).
Proof.
  intros Htype Hscenario Hparent.
  unfold make_param_initial_conditions, param_initial_conditions_eq_list.
  rewrite wrap_spline_reference. cbn [mbind result_bind].
  unfold initial_black_list. by rewrite Htype, Hscenario, Hparent.
Qed.
(** *** When the builders raise *)

Lemma mapM_Ok_inv {A B} (f : A → result B) (l : list A) ys :
  mapM f l = Ok ys → ∀ x, x ∈ l → ∃ y, f x = Ok y.
Proof.
  revert ys. induction l as [|a l IH]; intros ys Hys x Hx;
    [by apply elem_of_nil in Hx|].
  cbn in Hys. destruct (f a) as [b|] eqn:Hb; [|done]. cbn in Hys.
  destruct (mapM f l) as [bs|] eqn:Hbs; [|done].
  apply elem_of_cons in Hx as [->|Hx]; [by exists b|by apply (IH bs)].
Qed.

Lemma getitem_missing {V} (d : list (string * V)) key :
  key ∉ keys d → getitem d key = Raise (KeyError key).
Proof.
  unfold keys. induction d as [|[k v] d IH]; [done|].
  rewrite fmap_cons. intros [Hne Hd]%not_elem_of_cons. cbn in *.
  destruct (String.eqb_spec k key); [congruence|by apply IH].
Qed.

Lemma position_loop_Ok_inv (tv : struct R) (parents : gmap nat nat)
    (kite_radius main_node_radius : R) nodes : ∀ acc out,
  position_loop zero add sub mul div pow2 nodes tv parents kite_radius
    main_node_radius acc = Ok out →
  ∀ node, node ∈ nodes → ∃ parent q,
    parents !! node = Some parent ∧
    getitem tv (position_key node parent) = Ok q.
Proof.
  induction nodes as [|n nodes IH]; intros acc out Hout node Hnode;
    [by apply elem_of_nil in Hnode|].
  cbn in Hout. destruct (parents !! n) as [parent|] eqn:Hp; [|done].
  cbn in Hout.
  destruct (getitem tv ("q" +:+ str n +:+ str parent)) as [q|] eqn:Hq;
    [|done].
  cbn in Hout. apply elem_of_cons in Hnode as [->|Hnode].
  - by exists parent, q.
  - by apply (IH _ _ Hout).
Qed.

(** X15. The terminal position inequality is returned exactly when the
    state vector has q10 and, for every kite node, the architecture has
    its parent and the state vector its position; otherwise it raises. *)
Theorem terminal_position_inequality_returns (tv : struct R) (m : model R)
    (o : options R) :
  (∃ out, make_terminal_position_inequality zero add sub mul div pow2 tv m o
          = Ok out)
  ↔ positions_present tv m.
Proof.
  split.
  - intros [out Hout]. unfold make_terminal_position_inequality in Hout.
    destruct (getitem tv "q10") as [q10|] eqn:Hq10; [|done].
    split; [by exists q10|]. cbn in Hout.
    by apply (position_loop_Ok_inv _ _ _ _ _ _ _ Hout).
  - intros [[q10 Hq10] Hnodes]. eexists.
    unfold make_terminal_position_inequality. rewrite Hq10. cbn.
    by rewrite (position_loop_spec zero add sub mul div pow2 tv m o).
Qed.

Lemma length_select (components : list nat) (v : list R) :
  (∀ i, i ∈ components → i < length v) →
  length (select components v) = length components.
Proof.
  unfold select. induction components as [|i l IH]; intros Hall; [done|].
  cbn. destruct (lookup_lt_is_Some_2 v i) as [x Hx]; [apply Hall; left|].
  rewrite Hx. cbn. f_equal. apply IH. intros j Hj. apply Hall. by right.
Qed.

(** X16. The terminal point constraint has two rows for every q or dq
    state, three for every r state and the full block for every other
    state. *)
Theorem terminal_point_rows_total (tv rv : struct R) (m : model R) :
  (∀ state, state ∈ keys (variables_dict_x m) →
     terminal_point_ready split_name_and_node_identifier tv rv state) →
  ∃ out,
    make_terminal_point_constraint sub split_name_and_node_identifier tv rv m
      = Ok out ∧
    length out
    = sum_list_with (terminal_point_rows split_name_and_node_identifier tv)
        (keys (variables_dict_x m)).
Proof.
  intros Hready. eexists. split.
  - unfold make_terminal_point_constraint.
    erewrite mapM_ext_Ok; [done|].
    intros state Hstate. by apply terminal_point_blocks_spec, Hready.
  - apply length_concat_blocks. intros state Hstate.
    destruct (Hready state Hstate) as (t & r & Ht & Hr & Hlen & Hidx).
    unfold terminal_point_rows. rewrite (block_getitem _ _ _ Ht).
    apply length_select. intros i Hi. unfold difference.
    rewrite (block_getitem _ _ _ Ht), (block_getitem _ _ _ Hr),
            length_zip_with.
    specialize (Hidx i Hi). lia.
Qed.

(** X17. A q or dq state with fewer than two entries, or an r state with
    fewer than four, makes the terminal point constraint raise: no shorter
    block is ever returned in its place. *)
Theorem terminal_point_short_state (tv rv : struct R) (m : model R) state :
  state ∈ keys (variables_dict_x m) →
  (((split_name_and_node_identifier state).1 = "q" ∨
    (split_name_and_node_identifier state).1 = "dq") ∧
   length (block tv state) < 2) ∨
  ((split_name_and_node_identifier state).1 = "r" ∧
   length (block tv state) < 4) →
  ∀ out,
    make_terminal_point_constraint sub split_name_and_node_identifier tv rv m
    ≠ Ok out.
Proof.
  intros Hstate Hshort out Hout.
  unfold make_terminal_point_constraint in Hout.
  destruct (mapM _ _) as [blocks|] eqn:Hblocks; [|done].
  destruct (mapM_Ok_inv _ _ _ Hblocks state Hstate) as [b Hb].
  revert Hb Hshort. unfold terminal_point_blocks, block.
  destruct (split_name_and_node_identifier state) as [state_name node].
  cbn [fst]. rewrite py_in_q_dq.
  destruct (getitem tv state) as [t|]; [|by repeat case_match].
  cbn [mbind result_bind]. intros Hb [[Hq Hlen]|[-> Hlen]].
  - rewrite bool_decide_eq_true_2 in Hb by done.
    unfold slice2 in Hb. by rewrite decide_False in Hb by lia.
  - rewrite bool_decide_eq_false_2 in Hb by (by intros [?|?]).
    cbn in Hb. unfold slice2 in Hb. case_decide; [|done].
    cbn in Hb. destruct (getitem rv state) as [r|]; [|done].
    cbn in Hb. case_decide; [|done]. cbn in Hb.
    destruct (elementwise sub (take 2 t) (take 2 r)); [|done].
    cbn in Hb. unfold index3 in Hb.
    by rewrite (lookup_ge_None_2 t 3) in Hb by lia.
Qed.
(** *** Periodicity: what is read and what is not *)

Lemma periodicity_loop_surviving (init term : struct R) (o : options R)
    names : ∀ acc,
  (∀ name, name ∈ names → name ≠ "") →
  (∀ name, name ∈ names → periodicity_skipped get_label o name = false →
     ∃ a b, getitem init name = Ok a ∧ getitem term name = Ok b ∧
            length a = length b) →
  periodicity_loop sub get_label names init term o acc
  = Ok (acc ++ concat (difference sub init term <$>
          filter (fun name => periodicity_skipped get_label o name = false)
                 names)).
Proof.
  induction names as [|name names IH]; intros acc Hne Hnames.
  - cbn. by rewrite app_nil_r.
  - cbn [periodicity_loop]. rewrite periodicity_test_spec by (apply Hne; left).
    cbn [mbind result_bind]. rewrite filter_cons.
    destruct (periodicity_skipped get_label o name) eqn:Hskip; cbn [negb].
    + cbn [mbind result_bind]. rewrite decide_False by done.
      apply IH; intros n Hn; [apply Hne|apply Hnames]; by right.
    + destruct (Hnames name) as (a & b & Ha & Hb & Hlen); [left|done|].
      rewrite Ha, Hb. cbn [fmap result_fmap mbind result_bind].
      unfold columnize. rewrite elementwise_same_length by done.
      cbn [mbind result_bind]. rewrite decide_True by done.
      rewrite IH;
        [|intros n Hn; apply Hne; by right|intros n Hn; apply Hnames; by right].
      rewrite fmap_cons, concat_cons, app_assoc. do 3 f_equal.
      unfold difference.
      by rewrite (block_getitem _ _ _ Ha), (block_getitem _ _ _ Hb).
Qed.

Lemma periodicity_loop_surviving_value (init term : struct R)
    (o : options R) :
  (∀ name, name ∈ keys init → name ≠ "") →
  (∀ name, name ∈ keys init →
     periodicity_skipped get_label o name = false →
     ∃ b, getitem term name = Ok b ∧ length b = length (block init name)) →
  make_periodicity_equality sub get_label init term o
  = Ok (concat (difference sub init term <$>
          filter (fun name => periodicity_skipped get_label o name = false)
                 (keys init))).
Proof.
  intros Hne Hterm. unfold make_periodicity_equality, subkeys.
  rewrite (periodicity_loop_surviving init term o); [done|done|].
  intros name Hname Hskip.
  destruct (getitem_key_elem_of init name Hname) as [a Ha].
  destruct (Hterm name Hname Hskip) as (b & Hb & Hlen).
  rewrite (block_getitem _ _ _ Ha) in Hlen. by exists a, b.
Qed.

(** X18. The periodicity equality reads the terminal vector only at the
    keys it constrains: a terminal vector without the energy, wake or
    comparison-model states gives the same result, as long as the
    constrained keys are there with the sizes of the initial vector. *)
Theorem periodicity_reads_constrained_keys_only (init term : struct R)
    (o : options R) :
  (∀ name, name ∈ keys init → name ≠ "") →
  (∀ name, name ∈ keys init →
     periodicity_skipped get_label o name = false →
     ∃ b, getitem term name = Ok b ∧ length b = length (block init name)) →
  make_periodicity_equality sub get_label init term o
  = Ok (concat (difference sub init term <$>
          filter (fun name => periodicity_skipped get_label o name = false)
                 (keys init))).
Proof. apply periodicity_loop_surviving_value. Qed.

Lemma periodicity_loop_Ok_inv (init term : struct R) (o : options R)
    names : ∀ acc out,
  periodicity_loop sub get_label names init term o acc = Ok out →
  ∀ name, name ∈ names →
    name ≠ "" ∧
    (periodicity_skipped get_label o name = false →
     ∃ b, getitem term name = Ok b).
Proof.
  induction names as [|n names IH]; intros acc out Hout name Hname;
    [by apply elem_of_nil in Hname|].
  cbn [periodicity_loop] in Hout.
  destruct (decide (n = "")) as [->|Hn]; [done|].
  rewrite periodicity_test_spec in Hout by done.
  cbn [mbind result_bind] in Hout.
  destruct (periodicity_skipped get_label o n) eqn:Hskip; cbn [negb] in Hout.
  - cbn [mbind result_bind] in Hout.
    apply elem_of_cons in Hname as [->|Hname].
    + split; [done|]. by rewrite Hskip.
    + by apply (IH _ _ Hout).
  - destruct (getitem init n) as [a|]; [|done].
    destruct (getitem term n) as [b|] eqn:Hb; [|done].
    cbn [fmap result_fmap mbind result_bind] in Hout.
    destruct (elementwise sub (columnize a) (columnize b)); [|done].
    cbn [mbind result_bind] in Hout.
    apply elem_of_cons in Hname as [->|Hname].
    + split; [done|]. intros _. by exists b.
    + by apply (IH _ _ Hout).
Qed.

(** X19. The periodicity equality raises, rather than skip, when a key of
    the initial vector is the empty string or when a key it constrains is
    missing from the terminal vector. *)
Theorem periodicity_raises (init term : struct R) (o : options R) name :
  name ∈ keys init →
  name = "" ∨
  (periodicity_skipped get_label o name = false ∧ name ∉ keys term) →
  ∀ out, make_periodicity_equality sub get_label init term o ≠ Ok out.
Proof.
  intros Hname Hbad out Hout.
  unfold make_periodicity_equality, subkeys in Hout.
  destruct (periodicity_loop_Ok_inv _ _ _ _ _ _ Hout name Hname)
    as [Hne Hterm].
  destruct Hbad as [->|[Hskip Hmissing]]; [done|].
  destruct (Hterm Hskip) as [b Hb].
  by rewrite (getitem_missing term name Hmissing) in Hb.
Qed.

(** *** Assembly: a state vector without the energy state *)

(** X20. When the schema of the model has an energy state and the initial
    state vector has none, the initial constraints cannot be assembled in
    any mode: the key error for e is raised before the classifier is
    consulted. *)
Theorem initial_constraints_missing_energy (o : options R)
    (init ref : struct R) (m : model R) (xi : xi_dict R) :
  "e" ∈ keys (variables_dict_x m) → "e" ∉ keys init →
  get_initial_constraints sub div get_splines iteration_order o init ref m xi
  = Raise (KeyError "e").
Proof.
  intros Hschema Hinit. unfold get_initial_constraints.
  rewrite bool_decide_eq_true_2 by done.
  unfold make_initial_energy_equality.
  by rewrite (getitem_missing init "e" Hinit).
Qed.
(** *** Keys of the tether nodes *)

Lemma str_digit n :
  n < 10 → str n = String (ascii_of_nat (48 + n)) EmptyString.
Proof. intros Hn. do 10 (destruct n as [|n]; [reflexivity|]). lia. Qed.

Lemma digit_inj n n' :
  n < 10 → n' < 10 → ascii_of_nat (48 + n) = ascii_of_nat (48 + n') → n = n'.
Proof.
  intros Hn Hn' Heq. apply (f_equal nat_of_ascii) in Heq.
  rewrite !nat_ascii_embedding in Heq by lia. lia.
Qed.

(** X21. With node numbers below ten, two tether nodes never share a
    position key; beyond that the concatenation of the two numbers can
    coincide, as for node 1 on parent 12 and node 11 on parent 2. *)
Theorem position_key_single_digits :
  (∀ node parent node' parent',
     node < 10 → parent < 10 → node' < 10 → parent' < 10 →
     position_key node parent = position_key node' parent' →
     node = node' ∧ parent = parent') ∧
  position_key 1 12 = position_key 11 2.
Proof.
  split; [|reflexivity].
  intros node parent node' parent' Hn Hp Hn' Hp'. unfold position_key.
  rewrite !str_digit by done. intros Heq.
  pose proof (f_equal (String.get 1) Heq) as H1.
  pose proof (f_equal (String.get 2) Heq) as H2.
  change (Some (ascii_of_nat (48 + node)) = Some (ascii_of_nat (48 + node')))
    in H1.
  change (Some (ascii_of_nat (48 + parent)) = Some (ascii_of_nat (48 + parent')))
    in H2.
  split; apply digit_inj; done || congruence.
Qed.
(** *** Assembly of the periodic constraints *)

(** X22. When the classifier reports a periodic trajectory, the periodic
    constraints are the single equality state_periodicity holding the
    periodicity equality over the constrained keys; otherwise the list is
    empty and neither state vector is read. *)
Theorem periodic_constraints_value (o : options R) (init term : struct R) :
  (Classifier.periodic (Classifier.get_operation_conditions o) = true →
   (∀ name, name ∈ keys init → name ≠ "") →
   (∀ name, name ∈ keys init →
      periodicity_skipped get_label o name = false →
      ∃ b, getitem term name = Ok b ∧ length b = length (block init name)) →
   Assemblers.get_periodic_constraints sub get_label o init term
   = Ok [{| expr := concat (difference sub init term <$>
                      filter (fun name =>
                                periodicity_skipped get_label o name = false)
                             (keys init));
            name := "state_periodicity";
            ctype := eq_cstr |}]) ∧
  (Classifier.periodic (Classifier.get_operation_conditions o) = false →
   Assemblers.get_periodic_constraints sub get_label o init term = Ok []).
Proof.
  unfold Assemblers.get_periodic_constraints. split.
  - intros -> Hne Hterm.
    by rewrite (periodicity_loop_surviving_value init term o Hne Hterm).
  - by intros ->.
Qed.

End FurtherBuilders.

(** ** The further properties on the samples *)

Section FurtherSamples.
Import Aggregator AggregatorSpec Builders BuildersSpec Assemblers FurtherSpec.

Ltac absurd_decide H :=
  apply (bool_decide_pack _) in H; vm_compute in H; destruct H.

Ltac each_element H :=
  repeat (apply elem_of_cons in H as [->|H]); [..|by apply elem_of_nil in H].

Lemma constraint_families_dependent_witness :
  Classifier.terminal_inequalities
    (Classifier.get_operation_conditions battery_options) = true.
Proof.
  destruct (constraint_families_dependent battery_options) as [H _].
  apply H. reflexivity.
Defined.

Lemma initial_constraints_layout_witness :
  ∃ cstr_list,
    get_initial_constraints Z.sub Z.div sample_splines reversed_order
      damaged_options sample_states sample_reference sample_model sample_xi
      = Ok cstr_list ∧
    name <$> cstr_list = ["initial_energy"; "param_initial_conditions"].
Proof.
  eexists. split; [vm_compute; reflexivity|].
  apply (initial_constraints_layout Z.sub Z.div sample_splines
           reversed_order damaged_options sample_states sample_reference
           sample_model sample_xi).
  reflexivity.
Defined.

Lemma terminal_constraints_layout_witness :
  get_terminal_constraints 0%Z Z.add Z.sub Z.mul Z.div zsq
    split_trailing_digits sample_splines reversed_order hover_options
    sample_states sample_reference sample_model sample_xi = Ok [].
Proof.
  apply (terminal_constraints_layout 0%Z Z.add Z.sub Z.mul Z.div zsq
           split_trailing_digits sample_splines reversed_order hover_options
           sample_states sample_reference sample_model sample_xi);
    reflexivity.
Defined.

Lemma sample_positions_present :
  positions_present sample_states sample_model.
Proof.
  split; [eexists; reflexivity|].
  intros node Hnode. each_element Hnode; do 2 eexists; split; reflexivity.
Defined.

Lemma landing_terminal_constraints_witness :
  get_terminal_constraints 0%Z Z.add Z.sub Z.mul Z.div zsq
    split_trailing_digits sample_splines reversed_order landing_options
    sample_states sample_reference sample_model sample_xi
  = Ok [{| expr := [41; 166; 1804]%Z; name := "terminal_inequalities";
           ctype := ineq_cstr |}].
Proof.
  apply (landing_terminal_constraints 0%Z Z.add Z.sub Z.mul Z.div zsq
           split_trailing_digits sample_splines reversed_order
           landing_options sample_states sample_reference sample_model
           sample_xi).
  - by left.
  - apply sample_positions_present.
Defined.

Lemma struct_branches_witness :
  ∃ st s',
    make_constraint_struct (Dict 0) (Dict 1) example_entries = Ok (st, s') ∧
    entry_name <$> st = ["equality"; "inequality"].
Proof.
  apply (struct_branches 0 1 example_eqs example_ineqs example_entries).
  - reflexivity.
  - reflexivity.
  - by_decide.
  - by_decide.
Defined.

Lemma clear_empty_keys_keeps_sized_witness :
  clear_empty_keys (Dict 0) example_entries = Ok (Dict 0, example_entries).
Proof.
  apply (clear_empty_keys_keeps_sized 0 example_eqs example_entries).
  - reflexivity.
  - by_decide.
  - intros kv Hkv. each_element Hkv; reflexivity.
Defined.

Lemma struct_with_list_side_witness :
  ∃ st s',
    make_constraint_struct (Dict 1) (List 0) example_entries = Ok (st, s') ∧
    branch_of "equality" st = [("F", (1, 1))] ∧
    branch_of "inequality" st = [] ∧
    heap s' = <[1 := [("F", Casadi 1 1)]]> (heap example_entries).
Proof.
  apply (struct_with_list_side 1 example_ineqs example_entries).
  - reflexivity.
  - by_decide.
Defined.

Lemma initial_conditions_value_witness :
  make_initial_conditions Z.sub reversed_order point_states point_states
    sample_xi point_model launch_options
  = Ok [0; 0; 0; 0; 0; 0]%Z.
Proof.
  destruct (initial_conditions_value Z.sub reversed_order point_states
              point_states sample_xi point_model launch_options)
    as (out & -> & -> & _).
  - by_decide.
  - reflexivity.
  - reflexivity.
  - apply reversed_order_Permutation.
  - reflexivity.
Defined.

Lemma param_terminal_conditions_value_witness :
  make_param_terminal_conditions Z.sub Z.div sample_splines reversed_order
    point_states point_states sample_xi point_model transition_options
  = Ok [0; (-1); 1; 2; 3; 11]%Z.
Proof.
  destruct (param_terminal_conditions_value Z.sub Z.div sample_splines
              reversed_order point_states point_states sample_xi
              point_model transition_options)
    as (out & -> & -> & _).
  - by_decide.
  - reflexivity.
  - reflexivity.
  - apply reversed_order_Permutation.
  - reflexivity.
Defined.

Lemma param_initial_conditions_structural_damages_witness :
  ∃ out,
    make_param_initial_conditions Z.sub Z.div sample_splines schema_order
      sample_states sample_reference sample_xi sample_model damaged_options
      = Ok out ∧
    length out + 2 = 24.
Proof.
  destruct (param_initial_conditions_structural_damages Z.sub Z.div
              sample_splines schema_order sample_states sample_reference
              sample_xi sample_model damaged_options 1)
    as (out & H1 & _ & H2).
  - reflexivity.
  - reflexivity.
  - reflexivity.
  - by_decide.
  - reflexivity.
  - reflexivity.
  - reflexivity.
  - exists out. split; [exact H1|exact H2].
Defined.

Lemma param_initial_conditions_unknown_kite_witness :
  make_param_initial_conditions Z.sub Z.div sample_splines schema_order
    sample_states sample_reference sample_xi sample_model
    unknown_kite_options
  = Raise (KeyError "7").
Proof.
  apply (param_initial_conditions_unknown_kite Z.sub Z.div sample_splines
           schema_order sample_states sample_reference sample_xi
           sample_model unknown_kite_options); reflexivity.
Defined.

Lemma sample_terminal_point_ready state :
  state ∈ keys (variables_dict_x sample_model) →
  terminal_point_ready split_trailing_digits sample_states sample_reference
    state.
Proof.
  intros Hstate. each_element Hstate;
    (do 2 eexists; split; [reflexivity|]; split; [reflexivity|];
     split; [reflexivity|]; intros i Hi; vm_compute in Hi;
     each_element Hi; cbn; lia).
Defined.

Lemma terminal_point_rows_total_witness :
  ∃ out,
    make_terminal_point_constraint Z.sub split_trailing_digits
      sample_states sample_reference sample_model = Ok out ∧
    length out = 14.
Proof.
  apply (terminal_point_rows_total Z.sub split_trailing_digits
           sample_states sample_reference sample_model).
  apply sample_terminal_point_ready.
Defined.

Lemma terminal_point_short_state_witness :
  make_terminal_point_constraint Z.sub split_trailing_digits short_states
    short_states short_model = Raise IndexError.
Proof.
  destruct (make_terminal_point_constraint Z.sub split_trailing_digits
              short_states short_states short_model) as [out|e] eqn:E.
  - destruct (terminal_point_short_state Z.sub split_trailing_digits
                short_states short_states short_model "r10") with out.
    + by_decide.
    + right. split; [reflexivity|]. cbn. lia.
    + exact E.
  - vm_compute in E. injection E as <-. reflexivity.
Defined.

Lemma periodicity_reads_constrained_keys_only_witness :
  make_periodicity_equality Z.sub sample_label wake_states wake_terminal
    power_cycle_options
  = Ok [2; 3; 11; 5]%Z.
Proof.
  rewrite (periodicity_reads_constrained_keys_only Z.sub sample_label
             wake_states wake_terminal power_cycle_options).
  - reflexivity.
  - intros name Hname ->. absurd_decide Hname.
  - intros name Hname. each_element Hname; intros Hskip;
      try discriminate Hskip; eexists; split; reflexivity.
Defined.

Lemma periodicity_raises_witness :
  make_periodicity_equality Z.sub sample_label wake_states []
    power_cycle_options = Raise (KeyError "q10").
Proof.
  destruct (make_periodicity_equality Z.sub sample_label wake_states []
              power_cycle_options) as [out|e] eqn:E.
  - destruct (periodicity_raises Z.sub sample_label wake_states []
                power_cycle_options "q10") with out.
    + by_decide.
    + right. split; [reflexivity|]. apply not_elem_of_nil.
    + exact E.
  - vm_compute in E. injection E as <-. reflexivity.
Defined.

Lemma initial_constraints_missing_energy_witness :
  get_initial_constraints Z.sub Z.div sample_splines reversed_order
    launch_options point_states sample_reference sample_model sample_xi
  = Raise (KeyError "e").
Proof.
  apply (initial_constraints_missing_energy Z.sub Z.div sample_splines
           reversed_order launch_options point_states sample_reference
           sample_model sample_xi).
  - by_decide.
  - intros Hin. absurd_decide Hin.
Defined.

Lemma position_key_single_digits_witness :
  2 = 2 ∧ 1 = 1.
Proof.
  destruct position_key_single_digits as [H _].
  apply (H 2 1 2 1); try lia. reflexivity.
Defined.

Lemma periodic_constraints_value_witness :
  get_periodic_constraints Z.sub sample_label power_cycle_options
    wake_states wake_terminal
  = Ok [{| expr := [2; 3; 11; 5]%Z; name := "state_periodicity";
           ctype := eq_cstr |}].
Proof.
  destruct (periodic_constraints_value Z.sub sample_label
              power_cycle_options wake_states wake_terminal) as [H _].
  rewrite H.
  - reflexivity.
  - reflexivity.
  - intros name Hname ->. absurd_decide Hname.
  - intros name Hname. each_element Hname; intros Hskip;
      try discriminate Hskip; eexists; split; reflexivity.
Defined.

End FurtherSamples.
